(** * Thingpedia generic-response helpers: property paths, coercion, extraction

    A shallow embedding of the helper module that backs the generic REST and
    RSS devices of the Thingpedia SDK: [splitpropchain], [get], [cast],
    [getMixinArgs], [findMixinArg], [parseGenericResponse] and
    [formatString].

    JavaScript values are embedded as the datatype [value] (the JSON data a
    transport hands over, plus [undefined]); an abrupt completion of a
    JavaScript function (a thrown [TypeError] or [Error]) is explicit in
    the [completion] type, so that "does not raise" is a statement one can
    prove or refute.

    A string is the sequence of its code units, and a character of the type
    [ascii] is one code unit, of a value below 256: the strings of the
    model are the JavaScript strings whose code units are all in that range
    (U+0000 to U+00FF).  On them the length, the indices and the classes of
    the regular expressions are those JavaScript computes.

    What the module takes from other packages is not modelled beyond its
    interface: the classes of [ThingTalk.Builtin] and [Date] are
    constructors applied to arguments (of which the one of [Location]
    checks its coordinates), [parseFloat] is a constructor applied to a
    string, [toJS] is a parameter, and the [interpolate] function of
    string-interp follows the description the specification gives of it. *)

From Stdlib Require Import Ascii String ZArith QArith.
From stdpp Require Import gmap strings list fin_maps.

Set Warnings "-register-all,-clear-no-such-hyp".

(** ** Strings *)

Module Str.

(** [s !== ''], written [i < j] on the indices of a substring in the source. *)
Definition nonempty (s : string) : bool :=
  match s with EmptyString => false | String _ _ => true end.

End Str.

(** ** JavaScript values *)

(** Raw values: what [JSON.parse] produces, and [undefined].  Numbers are
    carried as rationals (every finite double is one); objects are finite
    maps from own property names to values; arrays are lists.

    The model reads and writes own properties.  That is what JavaScript
    does whenever the property is an own one, or its name is not the name
    of a member of a built-in prototype ([builtin_member] below); the
    members a value inherits ([toString], [constructor], [__proto__], ...)
    are functions and host objects, which are not values of this type. *)
Inductive value : Type :=
| VUndefined
| VNull
| VBool (b : bool)
| VNum (n : Q)
| VStr (s : string)
| VArr (elems : list value)
| VObj (props : gmap string value).

(** The result of [typeof]. *)
Inductive jstype := TyUndefined | TyObject | TyBoolean | TyNumber | TyString.

Definition typeof (v : value) : jstype :=
  match v with
  | VUndefined => TyUndefined
  | VNull | VArr _ | VObj _ => TyObject
  | VBool _ => TyBoolean
  | VNum _ => TyNumber
  | VStr _ => TyString
  end.

(** [ToBoolean]: the test of [if (v)] and of [v || w]. *)
Definition truthy (v : value) : bool :=
  match v with
  | VUndefined | VNull => false
  | VBool b => b
  | VNum n => negb (Qnum n =? 0)%Z
  | VStr s => Str.nonempty s
  | VArr _ | VObj _ => true
  end.



(** ** Completions *)

(** The exceptions the module can throw: the [TypeError] JavaScript itself
    raises (a property of [undefined] or [null] is read, a value that is not
    a function is called), and the [Error] a constructor of [ThingTalk]
    raises on arguments it rejects. *)
Inductive exn := TypeError | Error.

(** A call either returns normally or throws. *)
Inductive completion (A : Type) : Type :=
| Normal (a : A)
| Throw (e : exn).
Arguments Normal {A} a.
Arguments Throw {A} e.

#[global] Instance completion_ret : MRet completion := fun A a => Normal a.
#[global] Instance completion_bind : MBind completion := fun A B f c =>
  match c with Normal a => f a | Throw e => Throw e end.
#[global] Instance completion_fmap : FMap completion := fun A B f c =>
  match c with Normal a => Normal (f a) | Throw e => Throw e end.

Definition raises {A} (c : completion A) : Prop := exists e, c = Throw e.
Definition returns {A} (c : completion A) : Prop := exists a, c = Normal a.

(** ** Property access *)

(** The canonical numeric strings ["0"], ["1"], ["27"], ... are the names
    of the elements of an array and of the characters of a string. *)
Definition digit (c : ascii) : option N :=
  let n := N_of_ascii c in
  if ((48 <=? n) && (n <=? 57))%N then Some (n - 48)%N else None.

Fixpoint digits (s : string) (acc : N) : option N :=
  match s with
  | EmptyString => Some acc
  | String c s' =>
      match digit c with
      | Some d => digits s' (10 * acc + d)%N
      | None => None
      end
  end.

Definition array_index (k : string) : option N :=
  match k with
  | EmptyString => None
  | String c EmptyString => digit c
  | String c _ => if (c =? "0")%char then None else digits k 0
  end.

Definition of_length (n : nat) : value := VNum (inject_Z (Z.of_nat n)).

(** The names of the members a value inherits from the built-in prototypes
    [Object.prototype], [Number.prototype], [Boolean.prototype],
    [String.prototype] and [Array.prototype] (ECMAScript 2024 with its
    annex B).  At any other name a value has its own properties only. *)
Definition builtin_members : list string :=
  [ "constructor"; "hasOwnProperty"; "isPrototypeOf"; "propertyIsEnumerable";
    "toLocaleString"; "toString"; "valueOf"; "__proto__";
    "__defineGetter__"; "__defineSetter__"; "__lookupGetter__"; "__lookupSetter__";
    "toExponential"; "toFixed"; "toPrecision";
    "length"; "at"; "charAt"; "charCodeAt"; "codePointAt"; "concat"; "endsWith";
    "includes"; "indexOf"; "isWellFormed"; "lastIndexOf"; "localeCompare";
    "match"; "matchAll"; "normalize"; "padEnd"; "padStart"; "repeat"; "replace";
    "replaceAll"; "search"; "slice"; "split"; "startsWith"; "substring";
    "toLocaleLowerCase"; "toLocaleUpperCase"; "toLowerCase"; "toUpperCase";
    "toWellFormed"; "trim"; "trimEnd"; "trimStart"; "trimLeft"; "trimRight";
    "substr"; "anchor"; "big"; "blink"; "bold"; "fixed"; "fontcolor"; "fontsize";
    "italics"; "link"; "small"; "strike"; "sub"; "sup";
    "copyWithin"; "entries"; "every"; "fill"; "filter"; "find"; "findIndex";
    "findLast"; "findLastIndex"; "flat"; "flatMap"; "forEach"; "join"; "keys";
    "map"; "pop"; "push"; "reduce"; "reduceRight"; "reverse"; "shift"; "some";
    "sort"; "splice"; "toReversed"; "toSorted"; "toSpliced"; "unshift";
    "values"; "with" ].

Definition builtin_member (prop : string) : bool :=
  bool_decide (prop ∈ builtin_members).

(** An own property of an object, [undefined] when there is none. *)
Definition prop_of (props : gmap string value) (prop : string) : value :=
  default VUndefined (props !! prop).

(** [obj[prop]].  Reading a property of [undefined] or [null] throws a
    [TypeError]; a number or a boolean has no own property; a string has its
    [length] and its characters; an array its [length] and its elements; an
    object its own properties.  A property that is not an own one reads as
    [undefined], which is what JavaScript gives unless [builtin_member prop]
    holds. *)
Definition get_prop (obj : value) (prop : string) : completion value :=
  match obj with
  | VUndefined | VNull => Throw TypeError
  | VBool _ | VNum _ => Normal VUndefined
  | VStr s =>
      if (prop =? "length")%string then Normal (of_length (String.length s))
      else match array_index prop with
           | Some i =>
               match String.get (N.to_nat i) s with
               | Some c => Normal (VStr (String c ""))
               | None => Normal VUndefined
               end
           | None => Normal VUndefined
           end
  | VArr elems =>
      if (prop =? "length")%string then Normal (of_length (length elems))
      else match array_index prop with
           | Some i => Normal (default VUndefined (elems !! N.to_nat i))
           | None => Normal VUndefined
           end
  | VObj props => Normal (prop_of props prop)
  end.

(** [Object.prototype.hasOwnProperty.call(obj, prop)]: [ToObject] throws on
    [undefined] and [null]. *)
Definition hasOwnProperty (obj : value) (prop : string) : completion bool :=
  match obj with
  | VUndefined | VNull => Throw TypeError
  | VBool _ | VNum _ => Normal false
  | VStr s =>
      Normal ((prop =? "length")%string ||
              match array_index prop with
              | Some i => bool_decide (N.to_nat i < String.length s)
              | None => false
              end)
  | VArr elems =>
      Normal ((prop =? "length")%string ||
              match array_index prop with
              | Some i => bool_decide (N.to_nat i < length elems)
              | None => false
              end)
  | VObj props => Normal (bool_decide (is_Some (props !! prop)))
  end.

Definition nullish (v : value) : Prop := v = VUndefined \/ v = VNull.

(** ** splitpropchain *)

(** The characters the regular expression [/[\\.]/g] matches. *)
Definition backslash : ascii := "\"%char.
Definition dot : ascii := "."%char.

Definition is_special (c : ascii) : bool := (c =? backslash)%char || (c =? dot)%char.

(** The [while] loop of [splitpropchain], one step per character of the
    input from the current position of the regular expression on.  [rest]
    is what [reg.exec] has still to scan; [pre] is
    [propchainstring.substring(i, match.index)], the characters skipped
    since the last match, so that [match.index > i] is [pre] being
    non-empty; [chain], [buffer] and [escape] are the source's variables.
    When [rest] is exhausted [reg.exec] returns [null] and the code after
    the loop runs, where [i < propchainstring.length] is again [pre] being
    non-empty. *)
Fixpoint splitprop_loop (rest pre : string) (chain : list string)
    (buffer : string) (escape : bool) : list string :=
  match rest with
  | EmptyString =>
      let buffer := if Str.nonempty pre then buffer +:+ pre else buffer in
      chain ++ [buffer]
  | String c rest' =>
      if is_special c then
        let escape := if Str.nonempty pre then false else escape in
        let buffer := if Str.nonempty pre then buffer +:+ pre else buffer in
        if (c =? backslash)%char then
          if escape then splitprop_loop rest' "" chain (buffer +:+ "\") false
          else splitprop_loop rest' "" chain buffer true
        else
          if escape then splitprop_loop rest' "" chain (buffer +:+ ".") false
          else splitprop_loop rest' "" (chain ++ [buffer]) "" escape
      else splitprop_loop rest' (pre +:+ String c "") chain buffer escape
  end.

Definition splitpropchain (propchainstring : string) : list string :=
  splitprop_loop propchainstring "" [] "" false.

(** ** splitpropchain, match by match *)

(** The same loop with the indices of the source.  [exec_at s lastIndex pos]
    is [reg.exec(propchainstring)] when [reg.lastIndex] is [lastIndex]: the
    index and the character of the first match at or after that index, [s]
    being the part of the string from index [pos] on. *)
Fixpoint exec_at (s : string) (lastIndex pos : nat) : option (nat * ascii) :=
  match s with
  | EmptyString => None
  | String c s' =>
      if (lastIndex <=? pos)%nat && is_special c then Some (pos, c)
      else exec_at s' lastIndex (S pos)
  end.

Definition reg_exec (propchainstring : string) (lastIndex : nat) : option (nat * ascii) :=
  exec_at propchainstring lastIndex 0.

(** [s.substring(i, j)] for [i <= j]. *)
Definition js_substring (s : string) (i j : nat) : string :=
  String.substring i (j - i) s.

(** One iteration of [while (match !== null)] per unit of [fuel]; [m] is
    [match] ([match.index] and [match[0]]), and [reg.lastIndex] after a
    match at [index] is [index + 1]. *)
Fixpoint while_match (fuel : nat) (propchainstring : string) (m : option (nat * ascii))
    (i : nat) (chain : list string) (buffer : string) (escape : bool)
    : option (list string) :=
  match m with
  | None =>
      let buffer :=
        if (i <? String.length propchainstring)%nat
        then buffer +:+ js_substring propchainstring i (String.length propchainstring)
        else buffer in
      Some (chain ++ [buffer])
  | Some (index, c) =>
      match fuel with
      | O => None
      | S fuel' =>
          let escape := if (i <? index)%nat then false else escape in
          let buffer :=
            if (i <? index)%nat then buffer +:+ js_substring propchainstring i index
            else buffer in
          let lastIndex := S index in
          let next := reg_exec propchainstring lastIndex in
          if (c =? backslash)%char then
            if escape
            then while_match fuel' propchainstring next lastIndex chain (buffer +:+ "\") false
            else while_match fuel' propchainstring next lastIndex chain buffer true
          else
            if escape
            then while_match fuel' propchainstring next lastIndex chain (buffer +:+ ".") false
            else while_match fuel' propchainstring next lastIndex (chain ++ [buffer]) "" escape
      end
  end.

(** There is at most one match per character. *)
Definition splitpropchain_while (propchainstring : string) : option (list string) :=
  while_match (S (String.length propchainstring)) propchainstring
    (reg_exec propchainstring 0) 0 [] "" false.

(** ** get *)

(** [for (let prop of props) obj = obj[prop]; return obj]. *)
Fixpoint get_chain (obj : value) (props : list string) : completion value :=
  match props with
  | [] => Normal obj
  | prop :: props' => obj' ← get_prop obj prop; get_chain obj' props'
  end.

Definition get (obj : value) (propchain : string) : completion value :=
  get_chain obj (splitpropchain propchain).

(** ** cast *)

(** The declared types [cast] tells apart, through the flags [isArray],
    [isDate], [isNumber], [isMeasure], [isCurrency], [isEntity] and
    [isLocation]; a string or a boolean type sets none of them. *)
Inductive prim := PString | PNumber | PBoolean.

Inductive ttype : Type :=
| Primitive (p : prim)
| ArrayOf (elem : ttype)
| Date
| Measure
| Currency
| Entity
| Location.

(** What [cast] returns.  [Date] and the classes [Currency], [Entity] and
    [Location] of [ThingTalk.Builtin] are libraries of their own: an
    instance is represented by the arguments its constructor was called
    with, and [parseFloat(s)] by the string it was given. *)
Inductive coerced : Type :=
| CRaw (v : value)
| CArr (elems : list coerced)
| CDate (v : value)
| CFloat (s : string)
| CCurrency (amount : coerced) (code : value)
| CEntity (id display : value)
| CLocation (lat lon display : value).

(** The class [\s] of a regular expression, on the code units below 256:
    the tabulation, the line feed, the vertical tabulation, the form feed,
    the carriage return, the space and the no-break space U+00A0. *)
Definition is_space (c : ascii) : bool :=
  let n := N_of_ascii c in
  ((9 <=? n) && (n <=? 13) || (n =? 32) || (n =? 160))%N.

(** [value.split(/,\s*/g)]: the pieces between commas, the white space that
    follows a comma being part of the separator. *)
Fixpoint split_loop (s piece : string) (after_comma : bool) : list string :=
  match s with
  | EmptyString => [piece]
  | String c s' =>
      if after_comma && is_space c then split_loop s' piece true
      else if (c =? ",")%char then piece :: split_loop s' "" true
      else split_loop s' (piece +:+ String c "") false
  end.

Definition split_comma (s : string) : list string := split_loop s "" false.

(** [a && b] where evaluating either operand may throw. *)
Definition and_then (a b : completion bool) : completion bool :=
  x ← a; if x : bool then b else Normal false.

(** [new ThingTalk.Builtin.Location(lat, lon, display)].  The class is
    part of the thingtalk package; its constructor throws an [Error]
    (Invalid location) unless the latitude and the longitude are both
    numbers. *)
Definition new_Location (lat lon display : value) : completion coerced :=
  match typeof lat, typeof lon with
  | TyNumber, TyNumber => Normal (CLocation lat lon display)
  | _, _ => Throw Error
  end.

(** [new Date(value)] is taken to return on every value; it does on every
    value whose conversion to a primitive returns, that is on all but an
    object that has an own property named [toString] (and an array that
    holds one). *)
Fixpoint cast (v : value) (type : ttype) : completion coerced :=
  match type with
  | ArrayOf elem =>
      match v with
      | VStr s => CArr <$> mapM (fun piece => cast (VStr piece) elem) (split_comma s)
      | VArr elems => CArr <$> mapM (fun x => cast x elem) elems
      | _ => Throw TypeError
      end
  | Date => Normal (CDate v)
  | Primitive PNumber | Measure =>
      match v with
      | VStr s => Normal (CFloat s)
      | _ => Normal (CRaw v)
      end
  | Currency =>
      match v with
      | VNum _ => Normal (CCurrency (CRaw v) (VStr "usd"))
      | VStr s => Normal (CCurrency (CFloat s) (VStr "usd"))
      | _ =>
          amount ← get_prop v "value";
          code ← get_prop v "unit";
          Normal (CCurrency (CRaw amount) code)
      end
  | Entity =>
      match v with
      | VStr _ => Normal (CEntity v VNull)
      | _ =>
          id ← get_prop v "value";
          display ← get_prop v "display";
          Normal (CEntity id display)
      end
  | Location =>
      xy ← and_then (hasOwnProperty v "x") (hasOwnProperty v "y");
      if xy : bool then
        lat ← get_prop v "y";
        lon ← get_prop v "x";
        display ← get_prop v "display";
        new_Location lat lon display
      else
        ll ← and_then (hasOwnProperty v "latitude") (hasOwnProperty v "longitude");
        if ll : bool then
          lat ← get_prop v "latitude";
          lon ← get_prop v "longitude";
          display ← get_prop v "display";
          new_Location lat lon display
        else
          lat ← get_prop v "lat";
          lon ← get_prop v "lon";
          display ← get_prop v "display";
          new_Location lat lon display
  | Primitive PString | Primitive PBoolean => Normal (CRaw v)
  end.




(** ** Mixin arguments *)

Section Mixin.

(** The value expressions of a mixin are ThingTalk syntax trees; [toJS]
    evaluates one to a native value. *)
Variable expr : Type.
Variable toJS : expr -> value.

Record InputParam := { ip_name : string; ip_value : expr }.
Record Mixin := { in_params : list InputParam }.

Fixpoint getMixinArgs_loop (ps : list InputParam) (args : gmap string value)
    : gmap string value :=
  match ps with
  | [] => args
  | in_param :: ps' =>
      getMixinArgs_loop ps' (<[ip_name in_param := toJS (ip_value in_param)]> args)
  end.

Definition getMixinArgs (mixin : Mixin) : gmap string value :=
  getMixinArgs_loop (in_params mixin) ∅.

Fixpoint findMixinArg_loop (ps : list InputParam) (arg : string) : value :=
  match ps with
  | [] => VUndefined
  | in_param :: ps' =>
      if (ip_name in_param =? arg)%string then toJS (ip_value in_param)
      else findMixinArg_loop ps' arg
  end.

Definition findMixinArg (mixin : Mixin) (arg : string) : value :=
  findMixinArg_loop (in_params mixin) arg.

End Mixin.

Arguments ip_name {expr} _.
Arguments ip_value {expr} _.
Arguments in_params {expr} _.
Arguments Build_InputParam {expr} _ _.
Arguments Build_Mixin {expr} _.
Arguments getMixinArgs {expr} toJS mixin.
Arguments findMixinArg {expr} toJS mixin arg.

(** ** parseGenericResponse *)

(** An argument of a function signature.  [arg_json_key] is the string the
    [json_key] annotation evaluates to, when the argument has one. *)
Record ArgumentDef := {
  arg_name : string;
  arg_is_input : bool;
  arg_json_key : option string;
  arg_type : ttype
}.

(** A function signature: the names of its arguments in order, the lookup
    of an argument by name, and its own [json_key] annotation. *)
Record FunctionDef := {
  fn_args : list string;
  getArgument : string -> ArgumentDef;
  fn_json_key : option string
}.

(** The raw value of an output argument: through its [json_key] path when
    it has one, else the property of its name. *)
Definition raw_field (result : value) (arg : ArgumentDef) : completion value :=
  match arg_json_key arg with
  | Some json_key => get result json_key
  | None => get_prop result (arg_name arg)
  end.

Definition extract_arg (result : value) (arg : ArgumentDef) : completion coerced :=
  raw ← raw_field result arg; cast raw (arg_type arg).

(** An extracted record: [extracted[arg.name] = ...] on a fresh object. *)
Fixpoint extract_loop (fndef : FunctionDef) (result : value) (argnames : list string)
    (extracted : gmap string coerced) : completion (gmap string coerced) :=
  match argnames with
  | [] => Normal extracted
  | argname :: argnames' =>
      let arg := getArgument fndef argname in
      if arg_is_input arg then extract_loop fndef result argnames' extracted
      else
        x ← extract_arg result arg;
        extract_loop fndef result argnames' (<[arg_name arg := x]> extracted)
  end.

Definition extractOne (fndef : FunctionDef) (result : value)
    : completion (gmap string coerced) :=
  extract_loop fndef result (fn_args fndef) ∅.

(** The unwrapping of the envelope, the first step of
    [parseGenericResponse]. *)
Definition unwrap (json : value) (fndef : FunctionDef) : completion value :=
  match fn_json_key fndef with
  | Some json_key => get json json_key
  | None => Normal json
  end.

Definition parseGenericResponse (json : value) (fndef : FunctionDef)
    : completion (list (gmap string coerced)) :=
  json ← unwrap json fndef;
  match json with
  | VArr elems => mapM (extractOne fndef) elems
  | _ => r ← extractOne fndef json; Normal [r]
  end.

(** The output arguments among the arguments of the given names, in order;
    those of a signature, and their names. *)
Definition outputs_among (fndef : FunctionDef) (argnames : list string) : list ArgumentDef :=
  filter (fun arg => arg_is_input arg = false) (getArgument fndef <$> argnames).

Definition output_args (fndef : FunctionDef) : list ArgumentDef :=
  outputs_among fndef (fn_args fndef).

Definition output_names (fndef : FunctionDef) : list string :=
  arg_name <$> output_args fndef.

(** The types [cast] leaves a value that is not a string alone at, and
    those at which it returns whatever the value. *)
Definition passes_undefined (type : ttype) : bool :=
  match type with
  | Primitive _ | Measure => true
  | _ => false
  end.

Definition never_raises (type : ttype) : bool :=
  match type with
  | Primitive _ | Measure | Date => true
  | _ => false
  end.

(** ** formatString *)

Section Interpolate.

(** What the string-interp library decides, and this repository does not:
    what stands for a placeholder whose name resolves to [undefined] with
    [failIfMissing: false] (the placeholder itself, or nothing), and how a
    value that is not a string is printed. *)
Variable unresolved : string -> string.
Variable printed : value -> string.




(** The callback [formatString] passes to [interpolate]. *)
Definition resolve_param (deviceParams functionParams : value) (param : string)
    : completion value :=
  if truthy functionParams then
    a ← get_prop functionParams param;
    if truthy a then Normal a else get_prop deviceParams param
  else get_prop deviceParams param.


End Interpolate.

(** ** The path grammar, as specified *)

(** A segment free of the two characters the parser gives a meaning to. *)
Fixpoint plain (s : string) : bool :=
  match s with
  | EmptyString => true
  | String c s' => negb (is_special c) && plain s'
  end.

(** The parser as the specification words it: one pass from left to right
    with an escape-pending flag.  A backslash met with no escape pending
    sets the flag and is consumed; a dot met with no escape pending closes
    the segment; every other character, and every character met with an
    escape pending, goes to the segment buffer; the last buffer is always a
    segment. *)
Fixpoint parsePath_spec (s buffer : string) (escape : bool) : list string :=
  match s with
  | EmptyString => [buffer]
  | String c s' =>
      if escape then parsePath_spec s' (buffer +:+ String c "") false
      else if (c =? backslash)%char then parsePath_spec s' buffer true
      else if (c =? dot)%char then buffer :: parsePath_spec s' "" false
      else parsePath_spec s' (buffer +:+ String c "") false
  end.

(** ** Sample data *)

Definition nested_a_b_5 : value := VObj {[ "a" := VObj {[ "b" := VNum 5 ]} ]}.







Definition output_arg (name : string) (type : ttype) : ArgumentDef :=
  {| arg_name := name; arg_is_input := false; arg_json_key := None; arg_type := type |}.

Definition input_arg (name : string) (type : ttype) : ArgumentDef :=
  {| arg_name := name; arg_is_input := true; arg_json_key := None; arg_type := type |}.

(** A signature given by the list of its arguments. *)
Definition signature_of (args : list ArgumentDef) : FunctionDef :=
  {| fn_args := arg_name <$> args;
     getArgument := fun argname =>
       default (input_arg argname (Primitive PString))
               (List.find (fun arg => (arg_name arg =? argname)%string) args);
     fn_json_key := None |}.

Definition status_signature : FunctionDef :=
  signature_of [output_arg "status" (Primitive PString)].

Definition tags_signature : FunctionDef :=
  signature_of [output_arg "title" (Primitive PString);
                output_arg "tags" (ArrayOf (Primitive PString));
                output_arg "when" Date].

Definition price_signature : FunctionDef :=
  signature_of [input_arg "query" (Primitive PString);
                output_arg "title" (Primitive PString);
                output_arg "price" Currency].

Definition reading_signature : FunctionDef :=
  signature_of [input_arg "city" (Primitive PString);
                output_arg "city_name" (Primitive PString);
                output_arg "temperature" Measure;
                output_arg "updated" Date].

Definition rome_reading : value := VObj {[ "city_name" := VStr "Rome" ]}.

Definition titled_x : value := VObj {[ "title" := VStr "x" ]}.

Definition status_ok : value := VObj {[ "status" := VStr "ok" ]}.

Definition priced_x : value :=
  VObj {[ "query" := VStr "q"; "title" := VStr "x"; "price" := VNum 3 ]}.







(** The mixin block of the pairs (a, 1) and (a, 2), its value expressions
    being number literals. *)
Definition block_a1_a2 : Mixin Q :=
  Build_Mixin [Build_InputParam "a" 1%Q; Build_InputParam "a" 2%Q].

(** ** Templates *)

(** A template as the sequence of its pieces, literal text and
    placeholders, and the string it is written as. *)
Inductive piece :=
| Literal (text : string)
| Placeholder (name : string).











Section Fill.

Variable unresolved : string -> string.
Variable printed : value -> string.


End Fill.


(** ** Paths: escaping and pending escapes *)

(** The path that names a segment literally: a backslash before each dot
    and each backslash, which is how a caller addresses a property whose
    name holds one of them. *)
Fixpoint escape_segment (seg : string) : string :=
  match seg with
  | EmptyString => ""
  | String c seg' =>
      if is_special c then String backslash (String c (escape_segment seg'))
      else String c (escape_segment seg')
  end.

Definition all_backslashes (s : string) : bool :=
  forallb (fun c => (c =? backslash)%char) (list_ascii_of_string s).

(** The number of backslashes a string ends in. *)
Fixpoint trailing_backslashes (s : string) : nat :=
  match s with
  | EmptyString => 0
  | String c s' =>
      if (c =? backslash)%char && all_backslashes s' then S (String.length s')
      else trailing_backslashes s'
  end.

(** The value of [escape] once the loop has gone through [s], started with
    the value [escape]. *)
Fixpoint pending_escape (s : string) (escape : bool) : bool :=
  match s with
  | EmptyString => escape
  | String c s' =>
      if escape then pending_escape s' false
      else if (c =? backslash)%char then pending_escape s' true
      else pending_escape s' false
  end.

(** ** Comma-separated lists *)

Fixpoint no_comma (s : string) : bool :=
  match s with
  | EmptyString => true
  | String c s' => negb (c =? ",")%char && no_comma s'
  end.

Definition starts_with_space (s : string) : bool :=
  match s with
  | EmptyString => false
  | String c _ => is_space c
  end.

Definition is_ascii (c : ascii) : bool := (N_of_ascii c <? 128)%N.

(** White space of ASCII. *)
Fixpoint all_space (s : string) : bool :=
  match s with
  | EmptyString => true
  | String c s' => is_space c && is_ascii c && all_space s'
  end.

Definition starts_with_ascii (s : string) : bool :=
  match s with
  | EmptyString => true
  | String c _ => is_ascii c
  end.

(** A piece that [split] gives back as it is: no comma in it and, unless
    it is empty, a character of ASCII that is not white space at its
    start. *)
Definition clean_piece (s : string) : bool :=
  no_comma s && negb (starts_with_space s) && starts_with_ascii s.

(** ** Sample data for the further properties *)

Definition all_inputs_signature : FunctionDef :=
  signature_of [input_arg "query" (Primitive PString); input_arg "count" (Primitive PNumber)].

Definition mixin_url_scope : Mixin Q :=
  Build_Mixin [Build_InputParam "client_id" 7%Q; Build_InputParam "scope" 2%Q].

(** ** loadTextdomainDirectory *)

(** [s.split(re)] for a regular expression [re] that matches one character
    of a class: the pieces between the characters of the class. *)
Fixpoint split_chars (sep : ascii -> bool) (s piece : string) : list string :=
  match s with
  | EmptyString => [piece]
  | String c s' =>
      if sep c then piece :: split_chars sep s' ""
      else split_chars sep s' (piece +:+ String c "")
  end.

(** The class [[-_.@]]. *)
Definition is_locale_separator (c : ascii) : bool :=
  (c =? "-")%char || (c =? "_")%char || (c =? ".")%char || (c =? "@")%char.

(** [modir + '/' + split.join('_') + '.mo']. *)
Definition mo_path (modir : string) (split : list string) : string :=
  modir +:+ "/" +:+ String.concat "_" split +:+ ".mo".

(** The loop [while (!exists(mo) && split.length) { split.pop(); ... }],
    one iteration per unit of [fuel]; it gives [split] as the loop leaves
    it.  [file_exists] is [fs.exists] on a file system that does not change
    during the call. *)
Fixpoint find_mo (fuel : nat) (file_exists : string -> bool) (modir : string)
    (split : list string) : option (list string) :=
  if negb (file_exists (mo_path modir split)) && negb (length split =? 0)%nat then
    match fuel with
    | O => None
    | S fuel' => find_mo fuel' file_exists modir (removelast split)
    end
  else Some split.

(** What the function does once the loop is over: it reports that there
    is no translation, or reads and parses the file [mo] (and adds what it
    holds to the catalogue, or logs why it could not). *)
Inductive textdomain_outcome :=
| NoTranslations
| LoadFile (mo : string).

(** [locale.split(/[-_.@]/)]. *)
Definition locale_parts (locale : string) : list string :=
  split_chars is_locale_separator locale "".

Definition loadTextdomainDirectory (file_exists : string -> bool)
    (locale modir : string) : option textdomain_outcome :=
  let split := locale_parts locale in
  match find_mo (S (length split)) file_exists modir split with
  | None => None
  | Some split =>
      if (length split =? 0)%nat then Some NoTranslations
      else Some (LoadFile (mo_path modir split))
  end.

(** ** BaseDevice *)

(** The metadata of a device class that [hasKind] reads. *)
Record DeviceClass := {
  category : string;
  types : list string
}.

(** [array.indexOf(x)], -1 when [x] is not an element. *)
Fixpoint indexOf_from (l : list string) (x : string) (i : Z) : Z :=
  match l with
  | [] => (-1)%Z
  | y :: l' => if (y =? x)%string then i else indexOf_from l' x (i + 1)%Z
  end.

Definition indexOf (l : list string) (x : string) : Z := indexOf_from l x 0.

(** [kind === this.kind], [this.kind] being [this.state.kind]. *)
Definition is_own_kind (state : gmap string value) (kind : string) : bool :=
  match prop_of state "kind" with
  | VStr k => (kind =? k)%string
  | _ => false
  end.

Definition hasKind (metadata : DeviceClass) (state : gmap string value) (kind : string)
    : bool :=
  if (kind =? "data-source")%string then (category metadata =? "data")%string
  else if (kind =? "online-account")%string then (category metadata =? "online")%string
  else if (kind =? "thingengine-system")%string then (category metadata =? "system")%string
  else is_own_kind state kind || (0 <=? indexOf (types metadata) kind)%Z.

Definition category_kinds : list string :=
  ["data-source"; "online-account"; "thingengine-system"].

(** ** Helpers.Content *)

(** What [Url.parse] gives of a URL with a host. *)
Record ParsedUrl := {
  protocol : string;
  hostname : string
}.

Definition special_use_labels : list string :=
  ["local"; "localhost"; "localdomain"; "invalid"; "onion"].

Section Content.

(** The predicates of the ip package. *)
Variable isV4Format : string -> bool.
Variable isV6Format : string -> bool.
Variable isPublic : string -> bool.

(** [isPubliclyAccessible(url)] from [parsed = Url.parse(url)] on. *)
Definition isPubliclyAccessible (parsed : ParsedUrl) : bool :=
  if negb (protocol parsed =? "http:")%string && negb (protocol parsed =? "https:")%string
  then false
  else if isV4Format (hostname parsed) || isV6Format (hostname parsed)
  then isPublic (hostname parsed)
  else
    let parts := split_chars (fun c => (c =? ".")%char) (hostname parsed) "" in
    if (length parts =? 1)%nat then false
    else if (0 <=? indexOf special_use_labels (List.last parts ""))%Z then false
    else true.

End Content.

(** The label after the last dot of a host name, the whole name when it
    has no dot. *)
Fixpoint last_label_from (s label : string) : string :=
  match s with
  | EmptyString => label
  | String c s' =>
      if (c =? ".")%char then last_label_from s' ""
      else last_label_from s' (label +:+ String c "")
  end.

Definition last_label (s : string) : string := last_label_from s "".

Fixpoint has_dot (s : string) : bool :=
  match s with
  | EmptyString => false
  | String c s' => (c =? ".")%char || has_dot s'
  end.

Definition files_en_only (mo : string) : bool := (mo =? "po/en.mo")%string.

Definition thermostat_class : DeviceClass :=
  {| category := "data"; types := ["thermostat"; "online-account"] |}.

Definition thermostat_state : gmap string value := {[ "kind" := VStr "com.nest" ]}.

Definition never (s : string) : bool := false.

(** ** FilePreferences *)

Module FilePreferences.

(** The fields of a store.  The preferences are an object. *)
Record store := {
  _file : string;
  _writeTimeout : Q;
  _prefs : gmap string value;
  _dirty : bool;
  _writeScheduled : bool
}.

(** What a method does besides changing the fields: it arms a timer whose
    callback is [timer_fires] below, emits an event, starts the writing of
    the preferences, as JSON, to a file, or logs an error. *)
Inductive effect :=
| SetTimeout (delay : Q)
| Emit (event : string) (arg : value)
| WriteFile (file : string) (prefs : gmap string value)
| ConsoleError.

(** What reading and parsing the file gave the constructor: an object, a
    falsy value, or an exception, which is a [SyntaxError], has the code
    [ENOENT], or is another one.  A file that holds a truthy value that
    is not an object is not covered. *)
Inductive read_outcome :=
| ReadObject (props : gmap string value)
| ReadFalsy
| ReadSyntaxError
| ReadNoEntry
| ReadOtherError.

Definition with_prefs (this : store) (prefs : gmap string value) : store :=
  {| _file := _file this; _writeTimeout := _writeTimeout this; _prefs := prefs;
     _dirty := _dirty this; _writeScheduled := _writeScheduled this |}.

Definition with_dirty (this : store) (dirty : bool) : store :=
  {| _file := _file this; _writeTimeout := _writeTimeout this; _prefs := _prefs this;
     _dirty := dirty; _writeScheduled := _writeScheduled this |}.

Definition with_writeScheduled (this : store) (scheduled : bool) : store :=
  {| _file := _file this; _writeTimeout := _writeTimeout this; _prefs := _prefs this;
     _dirty := _dirty this; _writeScheduled := scheduled |}.

Definition _scheduleWrite (this : store) : store * list effect :=
  let this := with_dirty this true in
  if _writeScheduled this then (this, [])
  else (this, [SetTimeout (_writeTimeout this)]).

Definition flush (this : store) : list effect :=
  if negb (_dirty this) then []
  else [WriteFile (_file this) (_prefs this)].

(** The callback of the timer: [this._writeScheduled = false; this.flush()]. *)
Definition timer_fires (this : store) : store * list effect :=
  let this := with_writeScheduled this false in
  (this, flush this).

(** [new FilePreferences(file, writeTimeout)]; [None] when the exception of
    the reading is thrown again.  When [_scheduleWrite] is called the field
    [_writeScheduled] is still [undefined], which is falsy. *)
Definition construct (file : string) (writeTimeout : option Q) (read : read_outcome)
    : option (store * list effect) :=
  let fresh prefs :=
    {| _file := file; _writeTimeout := from_option id 100%Q writeTimeout;
       _prefs := prefs; _dirty := false; _writeScheduled := false |} in
  let finish (r : store * list effect) :=
    (with_writeScheduled (with_dirty (fst r) false) false, snd r) in
  match read with
  | ReadOtherError => None
  | ReadObject props => Some (finish (fresh props, []))
  | ReadFalsy | ReadNoEntry => Some (finish (_scheduleWrite (fresh ∅)))
  | ReadSyntaxError =>
      let r := _scheduleWrite (fresh ∅) in
      Some (finish (fst r, ConsoleError :: snd r))
  end.

(** [Object.keys(this._prefs)], as a set: the datatype of objects does not
    keep the order of insertion. *)
Definition keys (this : store) : gset string := dom (_prefs this).

(** [this._prefs[name]]: the own property of the preferences object, and
    [undefined] when it has none, which is what is read unless
    [builtin_member name] holds. *)
Definition get (this : store) (name : string) : value := prop_of (_prefs this) name.

Definition saveCopy (this : store) (to : string) : list effect :=
  [WriteFile to (_prefs this)].

Definition changed (this : store) : store * list effect :=
  let r := _scheduleWrite this in
  (fst r, snd r ++ [Emit "changed" VNull]).

Definition delete (this : store) (name : string) : store * list effect :=
  let this := with_prefs this (base.delete name (_prefs this)) in
  let r := _scheduleWrite this in
  (fst r, Emit "changed" (VStr name) :: snd r).

Section StrictEquality.

(** [a === b].  On objects and arrays it compares identities, which the
    datatype of values does not carry. *)
Variable strict_equal : value -> value -> bool.

(** [set(name, value)]: the store, the effects, and the value returned. *)
Definition set (this : store) (name : string) (v : value) : store * list effect * value :=
  let changed := negb (strict_equal (prop_of (_prefs this) name) v) in
  let this := with_prefs this (<[name := v]> (_prefs this)) in
  let r := _scheduleWrite this in
  (fst r, snd r ++ (if changed then [Emit "changed" (VStr name)] else []), v).

(** A call of a method, or the firing of a timer. *)
Inductive call :=
| CallSet (name : string) (v : value)
| CallDelete (name : string)
| CallChanged
| CallFlush
| CallSaveCopy (to : string)
| TimerFires.

Definition step (this : store) (c : call) : store * list effect :=
  match c with
  | CallSet name v => let r := set this name v in (fst (fst r), snd (fst r))
  | CallDelete name => delete this name
  | CallChanged => changed this
  | CallFlush => (this, flush this)
  | CallSaveCopy to => (this, saveCopy this to)
  | TimerFires => timer_fires this
  end.

(** A sequence of calls: the store it leaves and the effects, in order. *)
Fixpoint run (this : store) (calls : list call) : store * list effect :=
  match calls with
  | [] => (this, [])
  | c :: calls' =>
      let r := step this c in
      let r' := run (fst r) calls' in
      (fst r', snd r ++ snd r')
  end.

Definition mutates (c : call) : bool :=
  match c with
  | CallSet _ _ | CallDelete _ | CallChanged => true
  | _ => false
  end.

(** A call that sets or deletes the preference [name]. *)
Definition touches (name : string) (c : call) : bool :=
  match c with
  | CallSet n _ | CallDelete n => (n =? name)%string
  | _ => false
  end.

Definition is_timer (e : effect) : bool :=
  match e with
  | SetTimeout _ => true
  | _ => false
  end.

End StrictEquality.

End FilePreferences.

(** [===] on the values that have no identity; two objects or two arrays
    are taken as distinct. *)
Definition strict_equal_data (a b : value) : bool :=
  match a, b with
  | VUndefined, VUndefined | VNull, VNull => true
  | VBool x, VBool y => Bool.eqb x y
  | VNum x, VNum y => Qeq_bool x y
  | VStr x, VStr y => (x =? y)%string
  | _, _ => false
  end.

Definition prefs_two : gmap string value :=
  {[ "sqlite-schema-version" := VNum 3; "cloud-id" := VStr "abc" ]}.

Definition store_of_two : FilePreferences.store :=
  {| FilePreferences._file := "prefs.db"; FilePreferences._writeTimeout := 100%Q;
     FilePreferences._prefs := prefs_two; FilePreferences._dirty := false;
     FilePreferences._writeScheduled := false |}.

Definition store_empty : FilePreferences.store :=
  {| FilePreferences._file := "prefs.db"; FilePreferences._writeTimeout := 100%Q;
     FilePreferences._prefs := ∅; FilePreferences._dirty := false;
     FilePreferences._writeScheduled := false |}.

Definition calls_elsewhere : list FilePreferences.call :=
  [FilePreferences.CallSet "developer-key" (VStr "k"); FilePreferences.TimerFires;
   FilePreferences.CallDelete "sqlite-schema-version"; FilePreferences.CallFlush].

(** * Properties *)

(** ** Strings and completions *)

Lemma append_cons (c : ascii) (s t : string) :
  String c s +:+ t = String c (s +:+ t).
Proof. reflexivity. Qed.

Lemma append_nil_l (s : string) : "" +:+ s = s.
Proof. reflexivity. Qed.

Lemma append_nil_r (s : string) : s +:+ "" = s.
Proof.
  induction s as [|c s IH]; [reflexivity |].
  rewrite append_cons, IH. reflexivity.
Qed.

Lemma append_assoc (a b c : string) : (a +:+ b) +:+ c = a +:+ (b +:+ c).
Proof.
  induction a as [|x a IH]; [reflexivity |].
  rewrite !append_cons, IH. reflexivity.
Qed.

Lemma append_snoc (a : string) (c : ascii) (b : string) :
  (a +:+ String c "") +:+ b = a +:+ String c b.
Proof. rewrite append_assoc. reflexivity. Qed.

Lemma nonempty_append_snoc (a : string) (c : ascii) :
  Str.nonempty (a +:+ String c "") = true.
Proof. destruct a; reflexivity. Qed.

Lemma returns_not_raises {A} (c : completion A) : returns c <-> ~ raises c.
Proof.
  split.
  - intros [a ->] [e He]. discriminate.
  - destruct c as [a|e]; [exists a; reflexivity |].
    intros H. exfalso. apply H. exists e. reflexivity.
Qed.

Lemma raises_Throw {A} (e : exn) : raises (@Throw A e).
Proof. exists e. reflexivity. Qed.

Lemma not_raises_Normal {A} (a : A) : ~ raises (Normal a).
Proof. intros [e He]. discriminate. Qed.

Lemma returns_Normal {A} (a : A) : returns (Normal a).
Proof. exists a. reflexivity. Qed.

Lemma not_returns_Throw {A} (e : exn) : ~ returns (@Throw A e).
Proof. intros [a Ha]. discriminate. Qed.

Create HintDb completion.
#[global] Hint Resolve raises_Throw returns_Normal : completion.

(** ** The path parser *)

(** The loop of the source and the one-pass parser of the specification
    agree from every state: the characters skipped since the last match
    belong to the buffer, and skipping any clears a pending escape. *)
Lemma splitprop_loop_spec (rest pre : string) (chain : list string)
    (buffer : string) (escape : bool) :
  splitprop_loop rest pre chain buffer escape =
  chain ++ parsePath_spec rest (buffer +:+ pre)
             (if Str.nonempty pre then false else escape).
Proof.
  revert pre chain buffer escape.
  induction rest as [|c rest IH]; intros pre chain buffer escape.
  - cbn [splitprop_loop parsePath_spec].
    destruct pre; [rewrite append_nil_r |]; reflexivity.
  - cbn [splitprop_loop parsePath_spec].
    assert (Hbuf : (if Str.nonempty pre then buffer +:+ pre else buffer) = buffer +:+ pre).
    { destruct pre; [rewrite append_nil_r |]; reflexivity. }
    rewrite Hbuf. unfold is_special.
    destruct (c =? backslash)%char eqn:Hb; cbn [orb].
    + apply Ascii.eqb_eq in Hb. subst c.
      destruct (if Str.nonempty pre then false else escape);
        rewrite IH; cbn [Str.nonempty]; rewrite append_nil_r; reflexivity.
    + destruct (c =? dot)%char eqn:Hd.
      * apply Ascii.eqb_eq in Hd. subst c.
        destruct (if Str.nonempty pre then false else escape);
          rewrite IH; cbn [Str.nonempty].
        -- rewrite append_nil_r. reflexivity.
        -- rewrite <- app_assoc. reflexivity.
      * rewrite IH, nonempty_append_snoc, <- append_assoc.
        destruct (if Str.nonempty pre then false else escape); reflexivity.
Qed.

(** *** The loop over the matches computes the same chain *)

Lemma length_append (a b : string) :
  String.length (a +:+ b) = String.length a + String.length b.
Proof.
  induction a as [|x a IH]; [reflexivity |].
  rewrite append_cons. cbn [String.length]. rewrite IH. reflexivity.
Qed.

Lemma exec_at_skip (done rest : string) :
  forall lastIndex pos,
    lastIndex = pos + String.length done ->
    exec_at (done +:+ rest) lastIndex pos = exec_at rest lastIndex lastIndex.
Proof.
  induction done as [|c done IH]; intros lastIndex pos Hl.
  - cbn in Hl. rewrite Nat.add_0_r in Hl. subst. reflexivity.
  - rewrite append_cons. cbn [exec_at String.length] in *.
    assert (Hle : (lastIndex <=? pos)%nat = false) by (apply Nat.leb_gt; lia).
    rewrite Hle. cbn [andb]. apply IH. lia.
Qed.

Lemma exec_at_plain (pre rest : string) :
  plain pre = true ->
  forall lastIndex pos,
    exec_at (pre +:+ rest) lastIndex pos = exec_at rest lastIndex (pos + String.length pre).
Proof.
  induction pre as [|c pre IH]; intros Hp lastIndex pos.
  - cbn. rewrite Nat.add_0_r. reflexivity.
  - cbn [plain] in Hp. apply andb_true_iff in Hp as [Hc Hp].
    apply negb_true_iff in Hc.
    rewrite append_cons. cbn [exec_at String.length]. rewrite Hc, andb_false_r.
    rewrite IH by exact Hp. f_equal. lia.
Qed.

Lemma first_special_split (rest : string) :
  plain rest = true \/
  exists pre c rest',
    rest = pre +:+ String c rest' /\ plain pre = true /\ is_special c = true.
Proof.
  induction rest as [|c rest IH]; [left; reflexivity |].
  destruct (is_special c) eqn:Hc.
  - right. exists "", c, rest. auto.
  - destruct IH as [Hp | (pre & c' & rest' & -> & Hp & Hc')].
    + left. cbn. rewrite Hc. exact Hp.
    + right. exists (String c pre), c', rest'.
      split; [reflexivity |]. split; [cbn; rewrite Hc; exact Hp | exact Hc'].
Qed.

Lemma substring_skip (done s : string) (n : nat) :
  String.substring (String.length done) n (done +:+ s) = String.substring 0 n s.
Proof. induction done as [|c done IH]; [reflexivity | exact IH]. Qed.

Lemma substring_prefix (pre s : string) :
  String.substring 0 (String.length pre) (pre +:+ s) = pre.
Proof.
  induction pre as [|c pre IH]; [destruct s; reflexivity |].
  rewrite append_cons. cbn [String.length String.substring]. rewrite IH. reflexivity.
Qed.

Lemma js_substring_middle (done pre s : string) :
  js_substring (done +:+ pre +:+ s) (String.length done)
    (String.length done + String.length pre) = pre.
Proof.
  unfold js_substring.
  replace (String.length done + String.length pre - String.length done)
    with (String.length pre) by lia.
  rewrite substring_skip. apply substring_prefix.
Qed.

Lemma splitprop_loop_plain (seg : string) :
  plain seg = true ->
  forall rest pre chain buffer escape,
    splitprop_loop (seg +:+ rest) pre chain buffer escape =
    splitprop_loop rest (pre +:+ seg) chain buffer escape.
Proof.
  induction seg as [|c seg IH]; intros Hp rest pre chain buffer escape.
  - rewrite append_nil_r. reflexivity.
  - cbn [plain] in Hp. apply andb_true_iff in Hp as [Hc Hp].
    apply negb_true_iff in Hc.
    rewrite append_cons. cbn [splitprop_loop]. rewrite Hc.
    rewrite IH by exact Hp. rewrite append_snoc. reflexivity.
Qed.

Lemma exec_at_plain_None (rest : string) (lastIndex pos : nat) :
  plain rest = true -> exec_at rest lastIndex pos = None.
Proof.
  intros Hp. rewrite <- (append_nil_r rest).
  rewrite exec_at_plain by exact Hp. reflexivity.
Qed.

Lemma splitprop_loop_plain_end (rest : string) (chain : list string)
    (buffer : string) (escape : bool) :
  plain rest = true ->
  splitprop_loop rest "" chain buffer escape =
  chain ++ [if Str.nonempty rest then buffer +:+ rest else buffer].
Proof.
  intros Hp. rewrite <- (append_nil_r rest) at 1.
  rewrite splitprop_loop_plain by exact Hp. reflexivity.
Qed.

Lemma js_substring_rest (done rest : string) :
  js_substring (done +:+ rest) (String.length done)
    (String.length done + String.length rest) = rest.
Proof.
  rewrite <- (append_nil_r rest) at 1. apply js_substring_middle.
Qed.

Lemma ltb_length_nonempty (n : nat) (s : string) :
  (n <? n + String.length s)%nat = Str.nonempty s.
Proof.
  destruct s; cbn [String.length Str.nonempty].
  - apply Nat.ltb_ge. lia.
  - apply Nat.ltb_lt. lia.
Qed.

(** From each index the source's loop reaches, with fuel for the
    characters left, it returns what the character loop returns. *)
Lemma while_match_splitprop_loop (fuel : nat) :
  forall rest done chain buffer escape,
    String.length rest < fuel ->
    while_match fuel (done +:+ rest)
      (reg_exec (done +:+ rest) (String.length done)) (String.length done)
      chain buffer escape =
    Some (splitprop_loop rest "" chain buffer escape).
Proof.
  induction fuel as [|fuel IH]; intros rest done chain buffer escape Hfuel; [lia |].
  unfold reg_exec. rewrite (exec_at_skip done rest _ 0) by reflexivity.
  destruct (first_special_split rest) as [Hp | (pre & c & rest' & -> & Hp & Hc)].
  - rewrite exec_at_plain_None by exact Hp. cbn [while_match].
    rewrite splitprop_loop_plain_end by exact Hp.
    rewrite length_append, ltb_length_nonempty, js_substring_rest. reflexivity.
  - rewrite exec_at_plain by exact Hp. cbn [exec_at].
    assert (Hle : (String.length done <=? String.length done + String.length pre)%nat = true)
      by (apply Nat.leb_le; lia).
    rewrite Hle, Hc. cbn [andb while_match].
    rewrite ltb_length_nonempty, js_substring_middle.
    rewrite splitprop_loop_plain by exact Hp. rewrite append_nil_l.
    cbn [splitprop_loop]. rewrite Hc.
    assert (Hnext : forall chain' buffer' escape',
      while_match fuel (done +:+ pre +:+ String c rest')
        (exec_at (done +:+ pre +:+ String c rest')
           (S (String.length done + String.length pre)) 0)
        (S (String.length done + String.length pre)) chain' buffer' escape' =
      Some (splitprop_loop rest' "" chain' buffer' escape')).
    { intros chain' buffer' escape'.
      replace (done +:+ pre +:+ String c rest')
        with ((done +:+ pre +:+ String c "") +:+ rest')
        by (rewrite !append_assoc; reflexivity).
      replace (S (String.length done + String.length pre))
        with (String.length (done +:+ pre +:+ String c ""))
        by (rewrite !length_append; cbn; lia).
      apply IH. rewrite length_append in Hfuel. cbn in Hfuel. lia. }
    destruct (c =? backslash)%char;
      destruct (if Str.nonempty pre then false else escape); apply Hnext.
Qed.

(** The loop of the source ends, within one iteration per character, on
    the chain [splitpropchain] computes. *)
Lemma splitpropchain_while_agrees (s : string) :
  splitpropchain_while s = Some (splitpropchain s).
Proof.
  unfold splitpropchain_while, splitpropchain.
  exact (while_match_splitprop_loop (S (String.length s)) s "" [] "" false
           (Nat.lt_succ_diag_r _)).
Qed.

Lemma splitpropchain_spec (s : string) :
  splitpropchain s = parsePath_spec s "" false.
Proof. unfold splitpropchain. rewrite splitprop_loop_spec. reflexivity. Qed.

Lemma parsePath_spec_nonempty (s buffer : string) (escape : bool) :
  parsePath_spec s buffer escape <> [].
Proof.
  revert buffer escape. induction s as [|c s IH]; intros buffer escape; cbn.
  - discriminate.
  - destruct escape; [apply IH |].
    destruct (c =? backslash)%char; [apply IH |].
    destruct (c =? dot)%char; [discriminate | apply IH].
Qed.

Lemma parsePath_spec_plain (seg : string) :
  plain seg = true ->
  forall rest buffer,
    parsePath_spec (seg +:+ rest) buffer false = parsePath_spec rest (buffer +:+ seg) false.
Proof.
  induction seg as [|c seg IH]; intros Hp rest buffer.
  - rewrite append_nil_r. reflexivity.
  - cbn [plain] in Hp. apply andb_true_iff in Hp as [Hc Hp].
    apply negb_true_iff in Hc. unfold is_special in Hc.
    apply orb_false_iff in Hc as [Hb Hd].
    rewrite append_cons. cbn [parsePath_spec]. rewrite Hb, Hd.
    rewrite IH by exact Hp. rewrite append_snoc. reflexivity.
Qed.

Lemma parsePath_spec_join (segs : list string) :
  forall seg buffer,
    Forall (fun s => plain s = true) (seg :: segs) ->
    parsePath_spec (String.concat "." (seg :: segs)) buffer false = (buffer +:+ seg) :: segs.
Proof.
  induction segs as [|seg' segs IH]; intros seg buffer Hall.
  - cbn [String.concat]. rewrite <- (append_nil_r seg) at 1.
    rewrite parsePath_spec_plain by (inversion Hall; assumption). reflexivity.
  - inversion Hall as [|? ? Hseg Hrest]; subst.
    change (String.concat "." (seg :: seg' :: segs))
      with (seg +:+ String dot (String.concat "." (seg' :: segs))).
    rewrite parsePath_spec_plain by exact Hseg.
    cbn [parsePath_spec]. unfold backslash, dot. cbn [Ascii.eqb Bool.eqb].
    rewrite IH by exact Hrest. reflexivity.
Qed.

(** C5 -- Round trip: a non-empty sequence of segments that contain neither
    a dot nor a backslash, joined with dots and parsed by [splitpropchain],
    gives back the same sequence. *)
Theorem splitpropchain_join_roundtrip (segs : list string) :
  segs <> [] ->
  Forall (fun s => plain s = true) segs ->
  splitpropchain (String.concat "." segs) = segs.
Proof.
  intros Hne Hall. destruct segs as [|seg segs]; [congruence |].
  rewrite splitpropchain_spec, parsePath_spec_join by exact Hall.
  reflexivity.
Qed.

Lemma splitpropchain_join_roundtrip_witness :
  ["items"; ""; "0"; "first name"] <> [] /\
  Forall (fun s => plain s = true) ["items"; ""; "0"; "first name"] /\
  splitpropchain (String.concat "." ["items"; ""; "0"; "first name"]) =
  ["items"; ""; "0"; "first name"].
Proof.
  assert (Hne : ["items"; ""; "0"; "first name"] <> []) by discriminate.
  assert (Hall : Forall (fun s => plain s = true) ["items"; ""; "0"; "first name"])
    by (repeat constructor).
  split; [exact Hne |]. split; [exact Hall |].
  exact (splitpropchain_join_roundtrip _ Hne Hall).
Defined.

(** C6 -- The loop of [splitpropchain] over the matches of its regular
    expression ends on every input, and what it returns is what the
    one-pass escape parser of the specification returns (a backslash
    escapes the character after it, the last buffer is always appended);
    its result is never the empty sequence,
    whatever the input, the empty string and a string that ends in a lone
    backslash included; the path a, backslash, dot, b, dot, c has the two
    segments a.b and c, and the path a, backslash, backslash, b the single
    segment a, backslash, b. *)
Theorem splitpropchain_escape_nonempty :
  (forall s, splitpropchain_while s = Some (splitpropchain s)) /\
  (forall s, splitpropchain s = parsePath_spec s "" false) /\
  (forall s, splitpropchain s <> []) /\
  (forall s, exists front last, splitpropchain (s +:+ "\") = front ++ [last]) /\
  splitpropchain "" = [""] /\
  splitpropchain "a\.b.c" = ["a.b"; "c"] /\
  splitpropchain "a\\b" = ["a\b"].
Proof.
  split; [exact splitpropchain_while_agrees |].
  split; [exact splitpropchain_spec |].
  split; [intros s; rewrite splitpropchain_spec; apply parsePath_spec_nonempty |].
  split; [| repeat split; reflexivity].
  intros s.
  destruct (splitpropchain (s +:+ "\")) as [|x l] eqn:E using rev_ind.
  - exfalso. revert E. rewrite splitpropchain_spec. apply parsePath_spec_nonempty.
  - exists l, x. reflexivity.
Qed.

(** ** get *)

Lemma get_prop_nullish (obj : value) (prop : string) :
  nullish obj -> get_prop obj prop = Throw TypeError.
Proof. intros [-> | ->]; reflexivity. Qed.

Lemma get_prop_returns (obj : value) (prop : string) :
  ~ nullish obj -> returns (get_prop obj prop).
Proof.
  unfold nullish. intros Hn.
  destruct obj; cbn; repeat case_match; eauto with completion;
    exfalso; apply Hn; auto.
Qed.

Lemma get_prop_raises_iff (obj : value) (prop : string) :
  raises (get_prop obj prop) <-> nullish obj.
Proof.
  split.
  - intros Hr. destruct obj; try (left; reflexivity); try (right; reflexivity);
      exfalso; revert Hr; apply returns_not_raises, get_prop_returns;
      intros [H | H]; discriminate.
  - intros Hn. rewrite get_prop_nullish by exact Hn. apply raises_Throw.
Qed.

Lemma get_chain_cons (obj : value) (prop : string) (props : list string) :
  get_chain obj (prop :: props) =
  match get_prop obj prop with
  | Normal obj' => get_chain obj' props
  | Throw e => Throw e
  end.
Proof. reflexivity. Qed.

(** The walk raises exactly when it has to read a segment from [undefined]
    or [null]. *)
Lemma get_chain_raises_iff (props : list string) :
  forall obj,
    raises (get_chain obj props) <->
    exists front prop back v,
      props = front ++ prop :: back /\ get_chain obj front = Normal v /\ nullish v.
Proof.
  induction props as [|p ps IH]; intros obj.
  - split.
    + intros Hr. exfalso. revert Hr. apply not_raises_Normal.
    + intros (front & prop & back & v & Heq & _). destruct front; discriminate.
  - rewrite get_chain_cons. destruct (get_prop obj p) as [obj'|e] eqn:Hp.
    + assert (Hnn : ~ nullish obj).
      { intros Hn. rewrite get_prop_nullish in Hp by exact Hn. discriminate. }
      rewrite IH. split.
      * intros (front & prop & back & v & -> & Hfront & Hv).
        exists (p :: front), prop, back, v. split; [reflexivity |].
        split; [| exact Hv]. rewrite get_chain_cons, Hp. exact Hfront.
      * intros (front & prop & back & v & Heq & Hfront & Hv).
        destruct front as [|p' front].
        -- cbn in Hfront. injection Hfront as <-. contradiction.
        -- cbn [app] in Heq. injection Heq as <- ->.
           rewrite get_chain_cons, Hp in Hfront.
           exists front, prop, back, v. auto.
    + split; [| intros _; apply raises_Throw].
      intros _. exists [], p, ps, obj. split; [reflexivity |].
      split; [reflexivity |].
      apply (get_prop_raises_iff obj p). rewrite Hp. apply raises_Throw.
Qed.

(** The only exception of the walk is the [TypeError] of such a read. *)
Lemma get_prop_raises_TypeError (obj : value) (prop : string) :
  raises (get_prop obj prop) -> get_prop obj prop = Throw TypeError.
Proof. intros Hr. apply get_prop_nullish. apply (get_prop_raises_iff obj prop). exact Hr. Qed.

Lemma get_chain_raises_TypeError (props : list string) :
  forall obj, raises (get_chain obj props) -> get_chain obj props = Throw TypeError.
Proof.
  induction props as [|p ps IH]; intros obj Hr.
  - exfalso. revert Hr. apply not_raises_Normal.
  - rewrite get_chain_cons in Hr |- *.
    destruct (get_prop obj p) as [obj'|e] eqn:Hp; [apply IH; exact Hr |].
    rewrite <- Hp. apply get_prop_raises_TypeError. rewrite Hp. apply raises_Throw.
Qed.

(** C1, as stated, fails: a path that goes on after an absent property
    reads a property of [undefined], which throws. *)
Lemma get_raises_after_absent_property :
  get nested_a_b_5 "a.c.d" = Throw TypeError /\
  ~ (forall obj path, returns (get obj path)).
Proof.
  assert (H : get nested_a_b_5 "a.c.d" = Throw TypeError) by reflexivity.
  split; [exact H |].
  intros Hall. destruct (Hall nested_a_b_5 "a.c.d") as [v Hv].
  rewrite H in Hv. discriminate.
Qed.

(** C1, amended -- [get] reads the segments of the path one after the
    other; it raises exactly when a segment has to be read from
    [undefined] or [null], and then a [TypeError], which is the case for
    every path when the input itself is [undefined] or [null].  Reading
    one segment from a value that is neither never raises.  A number or a
    boolean read at a segment that is not the name of a built-in member
    gives [undefined], and raises when the path goes on after that
    segment; on the object a: b: 5 the path a.b gives 5, and the paths a.c
    and a.b.c give [undefined]. *)
Theorem get_raises_iff_nullish_step :
  (forall obj path,
      raises (get obj path) <->
      exists front prop back v,
        splitpropchain path = front ++ prop :: back /\
        get_chain obj front = Normal v /\ nullish v) /\
  (forall obj path, raises (get obj path) -> get obj path = Throw TypeError) /\
  (forall obj path, nullish obj -> get obj path = Throw TypeError) /\
  (forall v prop, ~ nullish v -> returns (get_chain v [prop])) /\
  (forall v prop,
      typeof v = TyBoolean \/ typeof v = TyNumber ->
      builtin_member prop = false ->
      get_chain v [prop] = Normal VUndefined) /\
  (forall v prop prop' props,
      typeof v = TyBoolean \/ typeof v = TyNumber ->
      builtin_member prop = false ->
      get_chain v (prop :: prop' :: props) = Throw TypeError) /\
  get nested_a_b_5 "a.b" = Normal (VNum 5) /\
  get nested_a_b_5 "a.c" = Normal VUndefined /\
  get nested_a_b_5 "a.b.c" = Normal VUndefined.
Proof.
  split; [intros obj path; apply get_chain_raises_iff |].
  split; [intros obj path; apply get_chain_raises_TypeError |].
  split.
  { intros obj path Hn. unfold get.
    destruct (splitpropchain path) as [|p ps] eqn:E.
    - exfalso. revert E. rewrite splitpropchain_spec. apply parsePath_spec_nonempty.
    - rewrite get_chain_cons, get_prop_nullish by exact Hn. reflexivity. }
  split.
  { intros v prop Hn. cbn [get_chain].
    destruct (get_prop_returns v prop Hn) as [a ->]. apply returns_Normal. }
  split.
  { intros v prop [H | H] _; destruct v; try discriminate; reflexivity. }
  split.
  { intros v prop prop' props [H | H] _; destruct v; try discriminate; reflexivity. }
  repeat split; reflexivity.
Qed.

Lemma get_raises_iff_nullish_step_witness :
  nullish VNull /\
  get VNull "a.b" = Throw TypeError /\
  (typeof (VNum 5) = TyBoolean \/ typeof (VNum 5) = TyNumber) /\
  builtin_member "c" = false /\
  get_chain (VNum 5) ["c"] = Normal VUndefined /\
  get_chain (VNum 5) ["c"; "d"] = Throw TypeError /\
  returns (get_chain (VStr "abc") ["c"]).
Proof.
  destruct get_raises_iff_nullish_step as (_ & _ & Hnull & Hret & Hone & Htwo & _).
  assert (Hn : nullish VNull) by (right; reflexivity).
  assert (Ht : typeof (VNum 5) = TyBoolean \/ typeof (VNum 5) = TyNumber)
    by (right; reflexivity).
  assert (Hc : builtin_member "c" = false) by reflexivity.
  assert (Hs : ~ nullish (VStr "abc")) by (intros [H | H]; discriminate).
  split; [exact Hn |].
  split; [exact (Hnull VNull "a.b" Hn) |].
  split; [exact Ht |].
  split; [exact Hc |].
  split; [exact (Hone (VNum 5) "c" Ht Hc) |].
  split; [exact (Htwo (VNum 5) "c" "d" [] Ht Hc) | exact (Hret (VStr "abc") "c" Hs)].
Defined.

(** ** cast *)


Lemma mapM_cons {A B} (f : A -> completion B) (x : A) (l : list A) :
  mapM f (x :: l) =
  match f x with
  | Normal y => match mapM f l with
                | Normal k => Normal (y :: k)
                | Throw e => Throw e
                end
  | Throw e => Throw e
  end.
Proof. reflexivity. Qed.

(** A [map] whose callback may throw throws when some call does. *)
Lemma mapM_raises_iff {A B} (f : A -> completion B) (l : list A) :
  raises (mapM f l) <-> Exists (fun x => raises (f x)) l.
Proof.
  induction l as [|x l IH].
  - split; intros H; [exfalso; revert H; apply not_raises_Normal | inversion H].
  - rewrite mapM_cons, Exists_cons, <- IH.
    destruct (f x) as [y|e].
    + destruct (mapM f l) as [k|e'].
      * split; [intros H | intros [H | H]];
          exfalso; revert H; apply not_raises_Normal.
      * split; [intros _; right | intros _]; apply raises_Throw.
    + split; [intros _; left | intros _]; apply raises_Throw.
Qed.

Lemma mapM_Normal_length {A B} (f : A -> completion B) (l : list A) (k : list B) :
  mapM f l = Normal k -> length k = length l /\ Forall2 (fun x y => f x = Normal y) l k.
Proof.
  revert k. induction l as [|x l IH]; intros k.
  - cbn. intros [= <-]. split; [reflexivity | constructor].
  - rewrite mapM_cons. destruct (f x) as [y|e] eqn:Hx; [| discriminate].
    destruct (mapM f l) as [k'|e'] eqn:Hl; [| discriminate].
    intros [= <-]. destruct (IH k' eq_refl) as [Hlen Hall].
    split; [cbn; congruence | constructor; assumption].
Qed.





















(** ** parseGenericResponse *)

Lemma outputs_among_cons (fndef : FunctionDef) (argname : string) (argnames : list string) :
  outputs_among fndef (argname :: argnames) =
  if arg_is_input (getArgument fndef argname)
  then outputs_among fndef argnames
  else getArgument fndef argname :: outputs_among fndef argnames.
Proof.
  unfold outputs_among. rewrite fmap_cons.
  destruct (arg_is_input (getArgument fndef argname)) eqn:E.
  - rewrite filter_cons_False; [reflexivity | rewrite E; discriminate].
  - rewrite filter_cons_True; [reflexivity | exact E].
Qed.

Lemma extract_loop_cons (fndef : FunctionDef) (result : value) (argname : string)
    (argnames : list string) (extracted : gmap string coerced) :
  extract_loop fndef result (argname :: argnames) extracted =
  if arg_is_input (getArgument fndef argname)
  then extract_loop fndef result argnames extracted
  else match extract_arg result (getArgument fndef argname) with
       | Normal x =>
           extract_loop fndef result argnames
             (<[arg_name (getArgument fndef argname) := x]> extracted)
       | Throw e => Throw e
       end.
Proof. reflexivity. Qed.

(** Extracting a record returns exactly when extracting each output
    argument does. *)
Lemma extract_loop_returns_iff (fndef : FunctionDef) (result : value)
    (argnames : list string) :
  forall extracted,
    returns (extract_loop fndef result argnames extracted) <->
    Forall (fun arg => returns (extract_arg result arg)) (outputs_among fndef argnames).
Proof.
  induction argnames as [|argname argnames IH]; intros extracted.
  - split; [intros _; constructor | intros _; apply returns_Normal].
  - rewrite extract_loop_cons, outputs_among_cons.
    destruct (arg_is_input (getArgument fndef argname)); [apply IH |].
    rewrite Forall_cons.
    destruct (extract_arg result (getArgument fndef argname)) as [x|e].
    + rewrite IH. split; [intros H; split; [apply returns_Normal | exact H] | intros [_ H]; exact H].
    + split; [intros H | intros [H _]]; exfalso; revert H; apply not_returns_Throw.
Qed.

(** The keys of a record are those it started with and the names of the
    output arguments. *)
Lemma extract_loop_dom (fndef : FunctionDef) (result : value) (argnames : list string) :
  forall extracted rec,
    extract_loop fndef result argnames extracted = Normal rec ->
    dom rec = dom extracted ∪ list_to_set (arg_name <$> outputs_among fndef argnames).
Proof.
  induction argnames as [|argname argnames IH]; intros extracted rec.
  - cbn. intros [= <-]. set_solver.
  - rewrite extract_loop_cons, outputs_among_cons.
    destruct (arg_is_input (getArgument fndef argname)); [apply IH |].
    destruct (extract_arg result (getArgument fndef argname)) as [x|e]; [| discriminate].
    intros H. apply IH in H. rewrite H, dom_insert_L, fmap_cons, list_to_set_cons.
    set_solver.
Qed.

Lemma extract_loop_lookup_other (fndef : FunctionDef) (result : value)
    (argnames : list string) :
  forall extracted rec name,
    extract_loop fndef result argnames extracted = Normal rec ->
    name ∉ arg_name <$> outputs_among fndef argnames ->
    rec !! name = extracted !! name.
Proof.
  induction argnames as [|argname argnames IH]; intros extracted rec name.
  - cbn. intros [= <-] _. reflexivity.
  - rewrite extract_loop_cons, outputs_among_cons.
    destruct (arg_is_input (getArgument fndef argname)); [apply IH |].
    destruct (extract_arg result (getArgument fndef argname)) as [x|e]; [| discriminate].
    rewrite fmap_cons, not_elem_of_cons. intros H [Hne Hnotin].
    rewrite (IH _ _ _ H Hnotin). apply lookup_insert_ne. congruence.
Qed.

(** With distinct output names, a record maps the name of each output
    argument to what extracting that argument gave. *)
Lemma extract_loop_lookup (fndef : FunctionDef) (result : value) (argnames : list string) :
  forall extracted rec arg,
    NoDup (arg_name <$> outputs_among fndef argnames) ->
    extract_loop fndef result argnames extracted = Normal rec ->
    arg ∈ outputs_among fndef argnames ->
    exists x, extract_arg result arg = Normal x /\ rec !! arg_name arg = Some x.
Proof.
  induction argnames as [|argname argnames IH]; intros extracted rec arg.
  - intros _ _ Hin. inversion Hin.
  - rewrite extract_loop_cons, outputs_among_cons.
    destruct (arg_is_input (getArgument fndef argname)); [apply IH |].
    destruct (extract_arg result (getArgument fndef argname)) as [x|e] eqn:Hx;
      [| discriminate].
    rewrite fmap_cons, NoDup_cons. intros [Hnotin Hnd] H Hin.
    apply elem_of_cons in Hin as [-> | Hin].
    + exists x. split; [exact Hx |].
      rewrite (extract_loop_lookup_other _ _ _ _ _ _ H Hnotin).
      apply lookup_insert_eq.
    + exact (IH _ _ _ Hnd H Hin).
Qed.

Lemma extractOne_returns_iff (fndef : FunctionDef) (result : value) :
  returns (extractOne fndef result) <->
  Forall (fun arg => returns (extract_arg result arg)) (output_args fndef).
Proof. apply extract_loop_returns_iff. Qed.

Lemma extractOne_dom (fndef : FunctionDef) (result : value) (rec : gmap string coerced) :
  extractOne fndef result = Normal rec -> dom rec = list_to_set (output_names fndef).
Proof.
  intros H. apply extract_loop_dom in H. rewrite H, dom_empty_L.
  unfold output_names, output_args. set_solver.
Qed.


Lemma parseGenericResponse_array (json : value) (fndef : FunctionDef) (elems : list value) :
  unwrap json fndef = Normal (VArr elems) ->
  parseGenericResponse json fndef = mapM (extractOne fndef) elems.
Proof. unfold parseGenericResponse. intros ->. reflexivity. Qed.


Lemma returns_iff_not_raises {A} (c : completion A) : ~ returns c <-> raises c.
Proof.
  destruct c as [a|e]; split; intros H.
  - exfalso. apply H, returns_Normal.
  - exfalso. revert H. apply not_raises_Normal.
  - apply raises_Throw.
  - apply not_returns_Throw.
Qed.


Lemma raw_field_returns (result : value) (arg : ArgumentDef) :
  ~ nullish result -> arg_json_key arg = None -> returns (raw_field result arg).
Proof.
  intros Hn Hk. unfold raw_field. rewrite Hk. apply get_prop_returns. exact Hn.
Qed.

Lemma cast_never_raises (v : value) (type : ttype) :
  never_raises type = true -> returns (cast v type).
Proof.
  destruct type as [[| |]| | | | | |]; try discriminate; intros _;
    destruct v; cbn; eauto with completion.
Qed.

Lemma cast_undefined (type : ttype) :
  cast VUndefined type =
  if passes_undefined type then Normal (CRaw VUndefined)
  else match type with
       | Date => Normal (CDate VUndefined)
       | _ => Throw TypeError
       end.
Proof. destruct type as [[| |]| | | | | |]; reflexivity. Qed.

Lemma extract_arg_undefined (result : value) (arg : ArgumentDef) :
  raw_field result arg = Normal VUndefined ->
  extract_arg result arg = cast VUndefined (arg_type arg).
Proof. unfold extract_arg. intros ->. reflexivity. Qed.

(** The extraction of a record raises as soon as that of one output
    argument does (what it raises is the exception of the first one that
    does). *)
Lemma extractOne_raises (fndef : FunctionDef) (result : value) (arg : ArgumentDef) :
  arg ∈ output_args fndef ->
  raises (extract_arg result arg) ->
  raises (extractOne fndef result).
Proof.
  intros Hin Hr. apply returns_iff_not_raises. intros Hret.
  apply returns_iff_not_raises in Hr. apply Hr.
  rewrite extractOne_returns_iff, Forall_forall in Hret. apply Hret, Hin.
Qed.

Lemma cast_passes_undefined_returns (v : value) (type : ttype) :
  passes_undefined type = true -> returns (cast v type).
Proof.
  intros Hp. apply cast_never_raises.
  destruct type; try discriminate; reflexivity.
Qed.


(** C3, as stated, fails: with an array type the absent field makes the
    extraction raise, and with a date type the record holds the date made
    from [undefined], not [undefined]. *)
Lemma extract_absent_array_or_date_field :
  raw_field titled_x (output_arg "tags" (ArrayOf (Primitive PString))) = Normal VUndefined /\
  parseGenericResponse (VArr [titled_x]) tags_signature = Throw TypeError /\
  extractOne (signature_of [output_arg "when" Date]) titled_x =
    Normal {[ "when" := CDate VUndefined ]} /\
  cast VUndefined Currency = Throw TypeError /\
  cast VUndefined Entity = Throw TypeError /\
  cast VUndefined Location = Throw TypeError.
Proof. repeat split; reflexivity. Qed.

(** C3, amended -- For an element and an output argument whose raw field
    reads as [undefined]: when the declared type is a primitive type or a
    measure, extracting the argument does not fail and gives [undefined],
    which the record maps the argument's name to; when it is a date, the
    record maps the name to the date made from [undefined]; when it is an
    array, a currency, an entity or a location, extracting the argument
    raises a [TypeError], and so the extraction of the element raises.
    When every output argument is of a primitive or measure type and is
    read by its name from an element that is neither [undefined] nor
    [null], the extraction returns. *)
Theorem extract_absent_field (fndef : FunctionDef) (result : value) (arg : ArgumentDef) :
  arg ∈ output_args fndef ->
  raw_field result arg = Normal VUndefined ->
  (passes_undefined (arg_type arg) = true ->
     extract_arg result arg = Normal (CRaw VUndefined) /\
     (NoDup (output_names fndef) ->
      forall rec, extractOne fndef result = Normal rec ->
                  rec !! arg_name arg = Some (CRaw VUndefined))) /\
  (arg_type arg = Date ->
     extract_arg result arg = Normal (CDate VUndefined) /\
     (NoDup (output_names fndef) ->
      forall rec, extractOne fndef result = Normal rec ->
                  rec !! arg_name arg = Some (CDate VUndefined))) /\
  (never_raises (arg_type arg) = false ->
     extract_arg result arg = Throw TypeError /\
     raises (extractOne fndef result)) /\
  (Forall (fun a => passes_undefined (arg_type a) = true /\ arg_json_key a = None)
          (output_args fndef) ->
   ~ nullish result ->
   returns (extractOne fndef result)).
Proof.
  intros Hin Hraw.
  pose proof (extract_arg_undefined result arg Hraw) as Hx.
  rewrite cast_undefined in Hx.
  assert (Hrec : forall x, extract_arg result arg = Normal x ->
            NoDup (output_names fndef) ->
            forall rec, extractOne fndef result = Normal rec ->
                        rec !! arg_name arg = Some x).
  { intros x Hax Hnd rec Hone.
    destruct (extract_loop_lookup _ _ _ _ _ _ Hnd Hone Hin) as (x' & Hx' & Hl).
    congruence. }
  split; [| split; [| split]].
  - intros Hp. rewrite Hp in Hx. split; [exact Hx | exact (Hrec _ Hx)].
  - intros Hd. rewrite Hd in Hx. cbn in Hx. split; [exact Hx | exact (Hrec _ Hx)].
  - intros Hnr.
    assert (Ht : extract_arg result arg = Throw TypeError).
    { rewrite Hx. destruct (arg_type arg) as [[| |]| | | | | |];
        try discriminate; reflexivity. }
    split; [exact Ht |].
    apply (extractOne_raises fndef result arg Hin). rewrite Ht. apply raises_Throw.
  - intros Hall Hn. rewrite extractOne_returns_iff.
    eapply Forall_impl; [exact Hall |].
    intros a [Ht Hk]. unfold extract_arg.
    destruct (raw_field_returns result a Hn Hk) as [raw ->].
    apply cast_passes_undefined_returns. exact Ht.
Qed.

Lemma extract_absent_field_witness :
  output_arg "temperature" Measure ∈ output_args reading_signature /\
  raw_field rome_reading (output_arg "temperature" Measure) = Normal VUndefined /\
  extract_arg rome_reading (output_arg "temperature" Measure) = Normal (CRaw VUndefined) /\
  extractOne reading_signature rome_reading =
    Normal {[ "city_name" := CRaw (VStr "Rome");
              "temperature" := CRaw VUndefined;
              "updated" := CDate VUndefined ]}.
Proof.
  assert (Hin : output_arg "temperature" Measure ∈ output_args reading_signature).
  { apply list_elem_of_In. vm_compute. auto. }
  assert (Hraw : raw_field rome_reading (output_arg "temperature" Measure) = Normal VUndefined)
    by reflexivity.
  destruct (extract_absent_field reading_signature rome_reading _ Hin Hraw) as (Hp & _).
  split; [exact Hin |]. split; [exact Hraw |].
  split; [exact (proj1 (Hp eq_refl)) | reflexivity].
Defined.




(** ** Mixin arguments *)

Lemma find_app {A} (f : A -> bool) (l1 l2 : list A) :
  List.find f (l1 ++ l2) =
  match List.find f l1 with
  | Some x => Some x
  | None => List.find f l2
  end.
Proof.
  induction l1 as [|x l1 IH]; [reflexivity |].
  cbn. destruct (f x); [reflexivity | exact IH].
Qed.

Lemma findMixinArg_loop_find {expr} (toJS : expr -> value)
    (ps : list (InputParam expr)) (arg : string) :
  findMixinArg_loop expr toJS ps arg =
  from_option (fun p => toJS (ip_value p)) VUndefined
    (List.find (fun p => (ip_name p =? arg)%string) ps).
Proof.
  induction ps as [|p ps IH]; [reflexivity |].
  cbn. destruct (ip_name p =? arg)%string; [reflexivity | exact IH].
Qed.

Lemma getMixinArgs_loop_lookup {expr} (toJS : expr -> value)
    (ps : list (InputParam expr)) (name : string) :
  forall args,
    getMixinArgs_loop expr toJS ps args !! name =
    match List.find (fun p => (ip_name p =? name)%string) (reverse ps) with
    | Some p => Some (toJS (ip_value p))
    | None => args !! name
    end.
Proof.
  induction ps as [|p ps IH]; intros args; [reflexivity |].
  cbn [getMixinArgs_loop]. rewrite IH, reverse_cons, find_app.
  destruct (List.find _ (reverse ps)); [reflexivity |].
  cbn. destruct (ip_name p =? name)%string eqn:E.
  - apply String.eqb_eq in E. subst name. apply lookup_insert_eq.
  - apply String.eqb_neq in E. apply lookup_insert_ne. exact E.
Qed.

(** C9 -- [findMixinArg] gives the evaluated value of the first pair of
    the block whose name is the one asked for, and [undefined] when there
    is none; [getMixinArgs] maps a name to the evaluated value of the last
    pair of that name, later pairs overwriting earlier ones, and has no
    entry for a name of no pair; on the block (a, 1), (a, 2) the first
    gives 1 for a and the second the mapping a: 2. *)
Theorem mixin_first_match_last_write :
  (forall (expr : Type) (toJS : expr -> value) (mixin : Mixin expr) (name : string),
      findMixinArg toJS mixin name =
        from_option (fun p => toJS (ip_value p)) VUndefined
          (List.find (fun p => (ip_name p =? name)%string) (in_params mixin)) /\
      getMixinArgs toJS mixin !! name =
        (fun p => toJS (ip_value p)) <$>
          List.find (fun p => (ip_name p =? name)%string) (reverse (in_params mixin))) /\
  findMixinArg VNum block_a1_a2 "a" = VNum 1 /\
  findMixinArg VNum block_a1_a2 "b" = VUndefined /\
  getMixinArgs VNum block_a1_a2 = {[ "a" := VNum 2 ]}.
Proof.
  split; [| repeat split; reflexivity].
  intros expr toJS mixin name. split.
  - apply findMixinArg_loop_find.
  - unfold getMixinArgs. rewrite getMixinArgs_loop_lookup.
    destruct (List.find _ (reverse (in_params mixin))); [reflexivity |].
    apply lookup_empty.
Qed.

(** ** formatString *)

Section Format.

Variable unresolved : string -> string.
Variable printed : value -> string.

Lemma truthy_not_nullish (v : value) : truthy v = true -> ~ nullish v.
Proof. intros Ht [-> | ->]; discriminate. Qed.














End Format.





(** ** Sample evaluations *)

Example splitpropchain_two_segments : splitpropchain "a.b" = ["a"; "b"].
Proof. reflexivity. Qed.
Example splitpropchain_escaped_dot : splitpropchain "a\.b.c" = ["a.b"; "c"].
Proof. reflexivity. Qed.
Example splitpropchain_escaped_backslash : splitpropchain "a\\b" = ["a\b"].
Proof. reflexivity. Qed.
Example splitpropchain_trailing_backslash : splitpropchain "ab\" = ["ab"].
Proof. reflexivity. Qed.
Example splitpropchain_escaped_letter_empty_segment : splitpropchain "a\bc..d" = ["abc"; ""; "d"].
Proof. reflexivity. Qed.
Example splitpropchain_while_escaped_dot :
  splitpropchain_while "a\.b.c" = Some ["a.b"; "c"].
Proof. reflexivity. Qed.
Example get_nested_number : get (VObj {[ "a" := VObj {[ "b" := VNum 5 ]} ]}) "a.b" = Normal (VNum 5).
Proof. reflexivity. Qed.
Example get_array_element_character : get (VObj {[ "a" := VArr [VStr "xy"; VNull] ]}) "a.0.1" = Normal (VStr "y").
Proof. reflexivity. Qed.
Example get_through_null_raises : get (VObj {[ "a" := VArr [VStr "xy"; VNull] ]}) "a.1.1" = Throw TypeError.
Proof. reflexivity. Qed.
Example get_array_length : get (VObj {[ "a" := VArr [VStr "xy"; VNull] ]}) "a.length" = Normal (VNum 2).
Proof. reflexivity. Qed.
Example cast_comma_separated_numbers : cast (VStr "1, 2,3") (ArrayOf (Primitive PNumber))
  = Normal (CArr [CFloat "1"; CFloat "2"; CFloat "3"]).
Proof. reflexivity. Qed.
Example split_comma_no_break_space :
  split_comma ("a," +:+ String (ascii_of_nat 160) "b, c") = ["a"; "b"; "c"].
Proof. reflexivity. Qed.
Example cast_location_text_coordinates_raises :
  cast (VObj {[ "x" := VStr "1"; "y" := VStr "2" ]}) Location = Throw Error.
Proof. reflexivity. Qed.
Example cast_location_swaps_axes : cast (VObj {[ "x" := VNum 10; "y" := VNum 20 ]}) Location
  = Normal (CLocation (VNum 20) (VNum 10) VUndefined).
Proof. reflexivity. Qed.
Example cast_undefined_array_raises : cast VUndefined (ArrayOf (Primitive PString)) = Throw TypeError.
Proof. reflexivity. Qed.

(** * Further properties *)

(** ** Paths compose *)

Lemma parsePath_spec_app (p : string) :
  forall buffer escape,
  exists front last,
    parsePath_spec p buffer escape = front ++ [last] /\
    forall rest,
      parsePath_spec (p +:+ rest) buffer escape =
      front ++ parsePath_spec rest last (pending_escape p escape).
Proof.
  induction p as [|c p IH]; intros buffer escape.
  - exists [], buffer. split; [reflexivity | intros rest; reflexivity].
  - assert (Hstep : forall buffer' escape',
      exists front last,
        parsePath_spec p buffer' escape' = front ++ [last] /\
        forall rest,
          parsePath_spec (p +:+ rest) buffer' escape' =
          front ++ parsePath_spec rest last (pending_escape p escape')) by exact IH.
    cbn [parsePath_spec pending_escape]. destruct escape.
    + destruct (Hstep (buffer +:+ String c "") false) as (front & last & H1 & H2).
      exists front, last. split; [exact H1 |].
      intros rest. rewrite append_cons. cbn [parsePath_spec]. apply H2.
    + destruct (c =? backslash)%char eqn:Hb.
      * destruct (Hstep buffer true) as (front & last & H1 & H2).
        exists front, last. split; [exact H1 |].
        intros rest. rewrite append_cons. cbn [parsePath_spec]. rewrite Hb. apply H2.
      * destruct (c =? dot)%char eqn:Hd.
        -- destruct (Hstep "" false) as (front & last & H1 & H2).
           exists (buffer :: front), last. split; [rewrite H1; reflexivity |].
           intros rest. rewrite append_cons. cbn [parsePath_spec].
           rewrite Hb, Hd, H2. reflexivity.
        -- destruct (Hstep (buffer +:+ String c "") false) as (front & last & H1 & H2).
           exists front, last. split; [exact H1 |].
           intros rest. rewrite append_cons. cbn [parsePath_spec].
           rewrite Hb, Hd. apply H2.
Qed.

Lemma all_backslashes_cons (c : ascii) (s : string) :
  all_backslashes (String c s) = (c =? backslash)%char && all_backslashes s.
Proof. reflexivity. Qed.

Lemma trailing_all_backslashes (s : string) :
  all_backslashes s = true -> trailing_backslashes s = String.length s.
Proof.
  destruct s as [|c s]; [reflexivity |].
  rewrite all_backslashes_cons. intros H. cbn [trailing_backslashes]. rewrite H. reflexivity.
Qed.

(** A pending escape is an odd number of backslashes at the end. *)
Lemma pending_escape_trailing (s : string) :
  forall escape,
    pending_escape s escape =
    if all_backslashes s then xorb escape (Nat.odd (String.length s))
    else Nat.odd (trailing_backslashes s).
Proof.
  induction s as [|c s IH]; intros escape.
  - cbn. destruct escape; reflexivity.
  - rewrite all_backslashes_cons. cbn [pending_escape trailing_backslashes String.length].
    rewrite Nat.odd_succ, <- Nat.negb_odd.
    destruct escape, (c =? backslash)%char; rewrite IH;
      destruct (all_backslashes s) eqn:Hall; cbn [andb xorb];
      rewrite ?(trailing_all_backslashes s Hall);
      destruct (Nat.odd (String.length s)); reflexivity.
Qed.

Lemma pending_escape_even (p : string) :
  Nat.even (trailing_backslashes p) = true -> pending_escape p false = false.
Proof.
  intros He. rewrite pending_escape_trailing.
  destruct (all_backslashes p) eqn:Hall.
  - rewrite (trailing_all_backslashes p Hall) in He.
    rewrite <- Nat.negb_even, He. reflexivity.
  - rewrite <- Nat.negb_even, He. reflexivity.
Qed.

Lemma parsePath_spec_dot_app (p q : string) :
  Nat.even (trailing_backslashes p) = true ->
  parsePath_spec (p +:+ "." +:+ q) "" false =
  parsePath_spec p "" false ++ parsePath_spec q "" false.
Proof.
  intros He.
  destruct (parsePath_spec_app p "" false) as (front & last & H1 & H2).
  rewrite H2, H1, (pending_escape_even p He).
  change ("." +:+ q) with (String dot q). cbn [parsePath_spec].
  unfold backslash, dot. cbn [Ascii.eqb Bool.eqb].
  rewrite <- app_assoc. reflexivity.
Qed.

(** X1 -- A dot that follows a path with no escape pending, that is a path
    that ends in an even number of backslashes, separates: the chain of
    the two paths joined by a dot is the chain of the first followed by the
    chain of the second. *)
Theorem splitpropchain_dot_app (p q : string) :
  Nat.even (trailing_backslashes p) = true ->
  splitpropchain (p +:+ "." +:+ q) = splitpropchain p ++ splitpropchain q.
Proof.
  intros He. rewrite !splitpropchain_spec.
  apply parsePath_spec_dot_app. exact He.
Qed.

Lemma splitpropchain_dot_app_witness :
  Nat.even (trailing_backslashes "a\\") = true /\
  splitpropchain ("a\\" +:+ "." +:+ "b.c") = ["a\"; "b"; "c"].
Proof.
  assert (He : Nat.even (trailing_backslashes "a\\") = true) by reflexivity.
  split; [exact He |].
  rewrite (splitpropchain_dot_app "a\\" "b.c" He). reflexivity.
Defined.

Lemma get_chain_app (props props' : list string) :
  forall obj,
    get_chain obj (props ++ props') = (v ← get_chain obj props; get_chain v props').
Proof.
  induction props as [|p props IH]; intros obj; [reflexivity |].
  cbn [app]. rewrite !get_chain_cons.
  destruct (get_prop obj p) as [obj'|e]; [apply IH | reflexivity].
Qed.

(** X2 -- Reading a path made of two paths joined by a dot is reading the
    first and then, from what it gave, the second, and raises when either
    does; the first path must end in an even number of backslashes. *)
Theorem get_dot_app (obj : value) (p q : string) :
  Nat.even (trailing_backslashes p) = true ->
  get obj (p +:+ "." +:+ q) = (v ← get obj p; get v q).
Proof.
  intros He. unfold get.
  rewrite !splitpropchain_spec, (parsePath_spec_dot_app p q He).
  apply get_chain_app.
Qed.

Lemma get_dot_app_witness :
  Nat.even (trailing_backslashes "a") = true /\
  get nested_a_b_5 ("a" +:+ "." +:+ "b") = Normal (VNum 5) /\
  get nested_a_b_5 ("c" +:+ "." +:+ "b") = Throw TypeError.
Proof.
  assert (He : Nat.even (trailing_backslashes "a") = true) by reflexivity.
  split; [exact He |].
  split; [rewrite (get_dot_app nested_a_b_5 "a" "b" He) | ]; reflexivity.
Defined.

Lemma parsePath_spec_escaped (seg : string) :
  forall rest buffer,
    parsePath_spec (escape_segment seg +:+ rest) buffer false =
    parsePath_spec rest (buffer +:+ seg) false.
Proof.
  induction seg as [|c seg IH]; intros rest buffer.
  - rewrite append_nil_r. reflexivity.
  - cbn [escape_segment]. destruct (is_special c) eqn:Hc.
    + rewrite !append_cons. cbn [parsePath_spec].
      unfold backslash at 1. cbn [Ascii.eqb Bool.eqb].
      rewrite IH, append_snoc. reflexivity.
    + unfold is_special in Hc. apply orb_false_iff in Hc as [Hb Hd].
      rewrite append_cons. cbn [parsePath_spec]. rewrite Hb, Hd.
      rewrite IH, append_snoc. reflexivity.
Qed.

Lemma parsePath_spec_join_escaped (segs : list string) :
  forall seg buffer,
    parsePath_spec (String.concat "." (escape_segment <$> (seg :: segs))) buffer false =
    (buffer +:+ seg) :: segs.
Proof.
  induction segs as [|seg' segs IH]; intros seg buffer.
  - cbn [fmap list_fmap String.concat].
    rewrite <- (append_nil_r (escape_segment seg)).
    rewrite parsePath_spec_escaped. reflexivity.
  - change (String.concat "." (escape_segment <$> (seg :: seg' :: segs)))
      with (escape_segment seg +:+
            String dot (String.concat "." (escape_segment <$> (seg' :: segs)))).
    rewrite parsePath_spec_escaped. cbn [parsePath_spec].
    unfold backslash, dot. cbn [Ascii.eqb Bool.eqb].
    rewrite IH. reflexivity.
Qed.

(** X3 -- Every non-empty sequence of segments, whatever their characters,
    is the chain of a path: the one that joins with dots the segments in
    which each dot and each backslash is preceded by a backslash. *)
Theorem splitpropchain_escaped_roundtrip (segs : list string) :
  segs <> [] ->
  splitpropchain (String.concat "." (escape_segment <$> segs)) = segs.
Proof.
  intros Hne. destruct segs as [|seg segs]; [congruence |].
  rewrite splitpropchain_spec. apply parsePath_spec_join_escaped.
Qed.

Lemma splitpropchain_escaped_roundtrip_witness :
  ["a.b"; "c\d"; ""; "\."] <> [] /\
  splitpropchain (String.concat "." (escape_segment <$> ["a.b"; "c\d"; ""; "\."])) =
  ["a.b"; "c\d"; ""; "\."].
Proof.
  assert (Hne : ["a.b"; "c\d"; ""; "\."] <> []) by discriminate.
  split; [exact Hne | exact (splitpropchain_escaped_roundtrip _ Hne)].
Defined.

(** ** Comma-separated strings and arrays *)

Lemma split_loop_piece (p : string) :
  no_comma p = true ->
  forall rest cur after_comma,
    (after_comma = true -> starts_with_space p = false) ->
    exists after_comma',
      split_loop (p +:+ rest) cur after_comma = split_loop rest (cur +:+ p) after_comma'.
Proof.
  induction p as [|c p IH]; intros Hnc rest cur after_comma Hsp.
  - exists after_comma. rewrite append_nil_r. reflexivity.
  - cbn [no_comma] in Hnc. apply andb_true_iff in Hnc as [Hc Hnc].
    apply negb_true_iff in Hc.
    destruct (IH Hnc rest (cur +:+ String c "") false) as [a' Ha']; [discriminate |].
    exists a'. rewrite append_cons. cbn [split_loop].
    assert (Hskip : after_comma && is_space c = false).
    { destruct after_comma; [| reflexivity]. cbn [andb]. exact (Hsp eq_refl). }
    rewrite Hskip, Hc, Ha', append_snoc. reflexivity.
Qed.

Lemma split_loop_spaces (ws : string) :
  all_space ws = true ->
  forall rest, split_loop (ws +:+ rest) "" true = split_loop rest "" true.
Proof.
  induction ws as [|c ws IH]; intros Hws rest; [reflexivity |].
  cbn [all_space] in Hws. apply andb_true_iff in Hws as [Hc Hws].
  apply andb_true_iff in Hc as [Hc _].
  rewrite append_cons. cbn [split_loop]. rewrite Hc. cbn [andb]. apply IH, Hws.
Qed.

Lemma split_loop_separator (ws rest cur : string) (after_comma : bool) :
  all_space ws = true ->
  split_loop (String "," ws +:+ rest) cur after_comma = cur :: split_loop rest "" true.
Proof.
  intros Hws. rewrite append_cons. cbn [split_loop].
  replace (after_comma && is_space ",") with false by (destruct after_comma; reflexivity).
  cbn [Ascii.eqb Bool.eqb]. rewrite split_loop_spaces by exact Hws. reflexivity.
Qed.

Lemma clean_piece_parts (p : string) :
  clean_piece p = true -> no_comma p = true /\ starts_with_space p = false.
Proof.
  unfold clean_piece. intros H. apply andb_true_iff in H as [H _].
  apply andb_true_iff in H as [H1 H2].
  apply negb_true_iff in H2. auto.
Qed.

Lemma split_loop_join (ws : string) (pieces : list string) :
  all_space ws = true ->
  forall piece after_comma,
    Forall (fun p => clean_piece p = true) (piece :: pieces) ->
    split_loop (String.concat (String "," ws) (piece :: pieces)) "" after_comma =
    piece :: pieces.
Proof.
  intros Hws. induction pieces as [|piece' pieces IH]; intros piece after_comma Hall.
  - inversion Hall as [|? ? Hp _]; subst.
    apply clean_piece_parts in Hp as [Hnc Hsp].
    cbn [String.concat].
    destruct (split_loop_piece piece Hnc "" "" after_comma (fun _ => Hsp)) as [a' Ha'].
    rewrite append_nil_r in Ha'. rewrite Ha'. reflexivity.
  - inversion Hall as [|? ? Hp Hrest]; subst.
    apply clean_piece_parts in Hp as [Hnc Hsp].
    change (String.concat (String "," ws) (piece :: piece' :: pieces))
      with (piece +:+ String "," ws +:+ String.concat (String "," ws) (piece' :: pieces)).
    destruct (split_loop_piece piece Hnc
                (String "," ws +:+ String.concat (String "," ws) (piece' :: pieces))
                "" after_comma (fun _ => Hsp)) as [a' Ha'].
    rewrite Ha', split_loop_separator by exact Hws.
    rewrite IH by exact Hrest. reflexivity.
Qed.

Lemma mapM_fmap {A B C} (f : B -> completion C) (g : A -> B) (l : list A) :
  mapM f (g <$> l) = mapM (fun x => f (g x)) l.
Proof.
  induction l as [|x l IH]; [reflexivity |].
  rewrite fmap_cons, !mapM_cons, IH. reflexivity.
Qed.

(** X4 -- A string of pieces joined by a comma and any white space of
    ASCII coerces to an array type to what the array of those pieces, as
    strings, coerces to (the same array, or the same exception), and
    [split] gives the pieces back; the pieces are free of commas and each
    is empty or starts with a character of ASCII that is not white space,
    and there is at least one. *)
Theorem cast_joined_string_as_array (ws : string) (pieces : list string) (elem : ttype) :
  all_space ws = true ->
  pieces <> [] ->
  Forall (fun p => clean_piece p = true) pieces ->
  split_comma (String.concat (String "," ws) pieces) = pieces /\
  cast (VStr (String.concat (String "," ws) pieces)) (ArrayOf elem) =
  cast (VArr (VStr <$> pieces)) (ArrayOf elem).
Proof.
  intros Hws Hne Hall. destruct pieces as [|piece pieces]; [congruence |].
  assert (Hsplit : split_comma (String.concat (String "," ws) (piece :: pieces)) =
                   piece :: pieces).
  { unfold split_comma. apply split_loop_join; assumption. }
  split; [exact Hsplit |].
  cbn [cast]. rewrite Hsplit, mapM_fmap. reflexivity.
Qed.

Lemma cast_joined_string_as_array_witness :
  all_space " " = true /\
  ["1"; "2 "; ""; "x y"] <> [] /\
  Forall (fun p => clean_piece p = true) ["1"; "2 "; ""; "x y"] /\
  cast (VStr "1, 2 , , x y") (ArrayOf (Primitive PNumber)) =
  cast (VArr [VStr "1"; VStr "2 "; VStr ""; VStr "x y"]) (ArrayOf (Primitive PNumber)).
Proof.
  assert (Hws : all_space " " = true) by reflexivity.
  assert (Hne : ["1"; "2 "; ""; "x y"] <> []) by discriminate.
  assert (Hall : Forall (fun p => clean_piece p = true) ["1"; "2 "; ""; "x y"])
    by (repeat constructor).
  split; [exact Hws |]. split; [exact Hne |]. split; [exact Hall |].
  exact (proj2 (cast_joined_string_as_array " " _ (Primitive PNumber) Hws Hne Hall)).
Defined.

(** ** Records *)

Lemma extract_loop_no_outputs (fndef : FunctionDef) (result : value)
    (argnames : list string) :
  forall extracted,
    outputs_among fndef argnames = [] ->
    extract_loop fndef result argnames extracted = Normal extracted.
Proof.
  induction argnames as [|argname argnames IH]; intros extracted; [reflexivity |].
  rewrite outputs_among_cons, extract_loop_cons.
  destruct (arg_is_input (getArgument fndef argname)); [apply IH | discriminate].
Qed.

Lemma mapM_const {A B} (b : B) (f : A -> completion B) (l : list A) :
  (forall x, f x = Normal b) -> mapM f l = Normal (replicate (length l) b).
Proof.
  intros Hf. induction l as [|x l IH]; [reflexivity |].
  rewrite mapM_cons, Hf, IH. reflexivity.
Qed.

(** X5 -- With no output argument, [parseGenericResponse] does not read
    the elements of the response: it returns one empty record per element
    of a sequence, and one empty record for any other response, also when
    an element or the response is [null] or [undefined]. *)
Theorem parseGenericResponse_no_outputs (json : value) (fndef : FunctionDef) (v : value) :
  output_args fndef = [] ->
  unwrap json fndef = Normal v ->
  parseGenericResponse json fndef =
  Normal (match v with
          | VArr elems => replicate (length elems) ∅
          | _ => [∅]
          end).
Proof.
  intros Hout Hu.
  assert (Hone : forall e, extractOne fndef e = Normal ∅).
  { intros e. apply extract_loop_no_outputs. exact Hout. }
  unfold parseGenericResponse. rewrite Hu. cbn.
  destruct v; try (rewrite Hone; reflexivity).
  apply mapM_const. exact Hone.
Qed.

Lemma parseGenericResponse_no_outputs_witness :
  output_args all_inputs_signature = [] /\
  unwrap (VArr [VNull; titled_x]) all_inputs_signature = Normal (VArr [VNull; titled_x]) /\
  parseGenericResponse (VArr [VNull; titled_x]) all_inputs_signature = Normal [∅; ∅].
Proof.
  assert (Hout : output_args all_inputs_signature = []) by reflexivity.
  assert (Hu : unwrap (VArr [VNull; titled_x]) all_inputs_signature =
               Normal (VArr [VNull; titled_x])) by reflexivity.
  split; [exact Hout |]. split; [exact Hu |].
  exact (parseGenericResponse_no_outputs _ _ _ Hout Hu).
Defined.

Lemma get_nullish (obj : value) (path : string) :
  nullish obj -> get obj path = Throw TypeError.
Proof.
  intros Hn. unfold get.
  destruct (splitpropchain path) as [|p ps] eqn:E.
  - exfalso. revert E. rewrite splitpropchain_spec. apply parsePath_spec_nonempty.
  - rewrite get_chain_cons, get_prop_nullish by exact Hn. reflexivity.
Qed.

Lemma extract_arg_nullish (result : value) (arg : ArgumentDef) :
  nullish result -> extract_arg result arg = Throw TypeError.
Proof.
  intros Hn. unfold extract_arg, raw_field.
  destruct (arg_json_key arg) as [k|].
  - rewrite get_nullish by exact Hn. reflexivity.
  - rewrite get_prop_nullish by exact Hn. reflexivity.
Qed.

Lemma extract_loop_nullish (fndef : FunctionDef) (result : value) (argnames : list string) :
  nullish result -> outputs_among fndef argnames <> [] ->
  forall extracted, extract_loop fndef result argnames extracted = Throw TypeError.
Proof.
  intros Hn. induction argnames as [|argname argnames IH]; intros Hout extracted.
  - exfalso. apply Hout. reflexivity.
  - rewrite extract_loop_cons. rewrite outputs_among_cons in Hout.
    destruct (arg_is_input (getArgument fndef argname)); [apply IH; exact Hout |].
    rewrite extract_arg_nullish by exact Hn. reflexivity.
Qed.

(** A [map] throws what its callback throws at the first element it
    throws at. *)
Lemma mapM_first_Throw {A B} (f : A -> completion B) (front : list A) (x : A)
    (back : list A) (e : exn) :
  Forall (fun y => returns (f y)) front -> f x = Throw e ->
  mapM f (front ++ x :: back) = Throw e.
Proof.
  intros Hfront Hx. induction Hfront as [|y front [b Hy] _ IH].
  - cbn [app]. rewrite mapM_cons, Hx. reflexivity.
  - cbn [app]. rewrite mapM_cons, Hy, IH. reflexivity.
Qed.

(** X6 -- A response that is [null] or [undefined], as it comes or after
    the unwrapping of the envelope, makes [parseGenericResponse] raise a
    [TypeError] as soon as the signature has an output argument; an
    element of a sequence that is [null] or [undefined] makes it raise,
    and what it raises is that [TypeError] when the elements before it are
    extracted. *)
Theorem parseGenericResponse_nullish_raises (json : value) (fndef : FunctionDef) :
  output_args fndef <> [] ->
  (forall v, unwrap json fndef = Normal v -> nullish v ->
             parseGenericResponse json fndef = Throw TypeError) /\
  (forall elems e, unwrap json fndef = Normal (VArr elems) -> e ∈ elems -> nullish e ->
                   raises (parseGenericResponse json fndef)) /\
  (forall front e back,
      unwrap json fndef = Normal (VArr (front ++ e :: back)) -> nullish e ->
      Forall (fun x => returns (extractOne fndef x)) front ->
      parseGenericResponse json fndef = Throw TypeError).
Proof.
  intros Hout.
  assert (Hone : forall e, nullish e -> extractOne fndef e = Throw TypeError).
  { intros e Hn. apply extract_loop_nullish; assumption. }
  split; [| split].
  - intros v Hu Hn. unfold parseGenericResponse. rewrite Hu. cbn.
    destruct Hn as [-> | ->]; rewrite Hone; solve [reflexivity | left; reflexivity | right; reflexivity].
  - intros elems e Hu Hin Hn.
    rewrite (parseGenericResponse_array json fndef elems Hu).
    apply mapM_raises_iff, Exists_exists. exists e. split; [exact Hin |].
    rewrite (Hone e Hn). apply raises_Throw.
  - intros front e back Hu Hn Hfront.
    rewrite (parseGenericResponse_array json fndef _ Hu).
    apply mapM_first_Throw; [exact Hfront | exact (Hone e Hn)].
Qed.

Lemma parseGenericResponse_nullish_raises_witness :
  output_args status_signature <> [] /\
  parseGenericResponse VNull status_signature = Throw TypeError /\
  raises (parseGenericResponse (VArr [status_ok; VUndefined]) status_signature) /\
  parseGenericResponse (VArr ([status_ok] ++ VUndefined :: [])) status_signature =
    Throw TypeError.
Proof.
  assert (Hout : output_args status_signature <> []) by (vm_compute; discriminate).
  destruct (parseGenericResponse_nullish_raises VNull status_signature Hout) as (H1 & _).
  destruct (parseGenericResponse_nullish_raises (VArr [status_ok; VUndefined])
              status_signature Hout) as (_ & H2 & H3).
  split; [exact Hout |].
  split; [| split].
  - apply (H1 VNull); [reflexivity | right; reflexivity].
  - apply (H2 [status_ok; VUndefined] VUndefined); [reflexivity | | left; reflexivity].
    apply list_elem_of_In. cbn. auto.
  - apply (H3 [status_ok] VUndefined []); [reflexivity | left; reflexivity |].
    constructor; [| constructor]. eexists. reflexivity.
Defined.

(** X7 -- The records come in the order of the elements, and the record
    of an element maps a name to a value exactly when an output argument
    of that name coerces its raw field in that element to that value; the
    names of the output arguments are distinct. *)
Theorem parseGenericResponse_records (json : value) (fndef : FunctionDef)
    (elems : list value) (records : list (gmap string coerced)) :
  NoDup (output_names fndef) ->
  unwrap json fndef = Normal (VArr elems) ->
  parseGenericResponse json fndef = Normal records ->
  Forall2 (fun e rec =>
             forall name x,
               rec !! name = Some x <->
               exists arg, arg ∈ output_args fndef /\ arg_name arg = name /\
                           extract_arg e arg = Normal x)
          elems records.
Proof.
  intros Hnd Hu Hp. rewrite (parseGenericResponse_array json fndef elems Hu) in Hp.
  apply mapM_Normal_length in Hp as [_ Hall]. clear Hu.
  induction Hall as [|e rec elems' records' He _ IH]; [constructor |].
  constructor; [| exact IH].
  intros name x. split.
  - intros Hl.
    assert (Hin : name ∈ dom rec) by (apply elem_of_dom; eauto).
    rewrite (extractOne_dom fndef e rec He) in Hin.
    apply elem_of_list_to_set in Hin. unfold output_names in Hin.
    apply list_elem_of_fmap in Hin as (arg & -> & Harg).
    exists arg. split; [exact Harg |]. split; [reflexivity |].
    destruct (extract_loop_lookup _ _ _ _ _ _ Hnd He Harg) as (x' & Hx' & Hl').
    congruence.
  - intros (arg & Harg & <- & Hx).
    destruct (extract_loop_lookup _ _ _ _ _ _ Hnd He Harg) as (x' & Hx' & Hl').
    congruence.
Qed.

Lemma parseGenericResponse_records_witness :
  NoDup (output_names price_signature) /\
  unwrap (VArr [priced_x]) price_signature = Normal (VArr [priced_x]) /\
  exists rec,
    parseGenericResponse (VArr [priced_x]) price_signature = Normal [rec] /\
    (rec !! "price" = Some (CCurrency (CRaw (VNum 3)) (VStr "usd")) <->
     exists arg, arg ∈ output_args price_signature /\ arg_name arg = "price" /\
                 extract_arg priced_x arg = Normal (CCurrency (CRaw (VNum 3)) (VStr "usd"))).
Proof.
  assert (Hnd : NoDup (output_names price_signature)).
  { vm_compute. repeat constructor; set_solver. }
  assert (Hu : unwrap (VArr [priced_x]) price_signature = Normal (VArr [priced_x]))
    by reflexivity.
  split; [exact Hnd |]. split; [exact Hu |].
  destruct (parseGenericResponse (VArr [priced_x]) price_signature) as [records|e] eqn:E;
    [| exfalso; vm_compute in E; discriminate].
  pose proof (parseGenericResponse_records _ _ _ _ Hnd Hu E) as Hall.
  inversion Hall as [|e0 rec elems' records' Hrec Hrest]; subst.
  inversion Hrest; subst.
  exists rec. split; [reflexivity | apply Hrec].
Defined.

(** ** The two scopes of a placeholder *)

(** X8 -- The callback of [formatString] reads the device parameters only
    when the function parameters are missing or give a falsy value for
    the name: it raises exactly when the device parameters are [undefined]
    or [null] and that is the case. *)
Theorem resolve_param_raises_iff (dev fn : value) (param : string) :
  raises (resolve_param dev fn param) <->
  nullish dev /\
  (truthy fn = false \/ exists a, get_prop fn param = Normal a /\ truthy a = false).
Proof.
  unfold resolve_param. destruct (truthy fn) eqn:Hfn.
  - destruct (get_prop_returns fn param (truthy_not_nullish fn Hfn)) as [a Ha].
    rewrite Ha. cbn. destruct (truthy a) eqn:Hta.
    + split.
      * intros H. exfalso. revert H. apply not_raises_Normal.
      * intros (_ & [H | (a' & Ha' & Hf)]); [discriminate |].
        injection Ha' as <-. congruence.
    + rewrite get_prop_raises_iff. split.
      * intros Hn. split; [exact Hn |]. right. exists a. auto.
      * intros [Hn _]. exact Hn.
  - rewrite get_prop_raises_iff. split.
    + intros Hn. split; [exact Hn | left; reflexivity].
    + intros [Hn _]. exact Hn.
Qed.

(** ** The two readings of a mixin block *)

Lemma find_none_of_not_in {expr} (ps : list (InputParam expr)) (name : string) :
  name ∉ ip_name <$> ps ->
  List.find (fun p => (ip_name p =? name)%string) ps = None.
Proof.
  induction ps as [|p ps IH]; [reflexivity |].
  rewrite fmap_cons, not_elem_of_cons. intros [Hne Hnotin]. cbn.
  destruct (ip_name p =? name)%string eqn:E.
  - apply String.eqb_eq in E. congruence.
  - apply IH, Hnotin.
Qed.

Lemma getMixinArgs_loop_first {expr} (toJS : expr -> value)
    (ps : list (InputParam expr)) (name : string) :
  NoDup (ip_name <$> ps) ->
  forall args,
    getMixinArgs_loop expr toJS ps args !! name =
    match List.find (fun p => (ip_name p =? name)%string) ps with
    | Some p => Some (toJS (ip_value p))
    | None => args !! name
    end.
Proof.
  induction ps as [|p ps IH]; intros Hnd args; [reflexivity |].
  rewrite fmap_cons, NoDup_cons in Hnd. destruct Hnd as [Hnotin Hnd].
  cbn [getMixinArgs_loop List.find]. rewrite IH by exact Hnd.
  destruct (ip_name p =? name)%string eqn:E.
  - apply String.eqb_eq in E. subst name.
    rewrite (find_none_of_not_in ps (ip_name p) Hnotin). apply lookup_insert_eq.
  - apply String.eqb_neq in E.
    destruct (List.find _ ps); [reflexivity |]. apply lookup_insert_ne. exact E.
Qed.

Lemma getMixinArgs_loop_dom {expr} (toJS : expr -> value) (ps : list (InputParam expr)) :
  forall args,
    dom (getMixinArgs_loop expr toJS ps args) = dom args ∪ list_to_set (ip_name <$> ps).
Proof.
  induction ps as [|p ps IH]; intros args.
  - cbn. set_solver.
  - cbn [getMixinArgs_loop]. rewrite IH, dom_insert_L, fmap_cons, list_to_set_cons.
    set_solver.
Qed.

(** X9 -- The mapping [getMixinArgs] builds has the names of the pairs of
    the block as its keys; when no two pairs share a name, [findMixinArg]
    gives for every name what that mapping holds under it, [undefined]
    when it holds nothing. *)
Theorem findMixinArg_is_getMixinArgs_lookup
    (expr : Type) (toJS : expr -> value) (mixin : Mixin expr) :
  dom (getMixinArgs toJS mixin) = list_to_set (ip_name <$> in_params mixin) /\
  (NoDup (ip_name <$> in_params mixin) ->
   forall name,
     findMixinArg toJS mixin name = default VUndefined (getMixinArgs toJS mixin !! name)).
Proof.
  split.
  - unfold getMixinArgs. rewrite getMixinArgs_loop_dom, dom_empty_L. set_solver.
  - intros Hnd name. unfold findMixinArg, getMixinArgs.
    rewrite findMixinArg_loop_find, (getMixinArgs_loop_first toJS _ name Hnd).
    destruct (List.find _ (in_params mixin)); [reflexivity |].
    rewrite lookup_empty. reflexivity.
Qed.

Lemma findMixinArg_is_getMixinArgs_lookup_witness :
  NoDup (ip_name <$> in_params mixin_url_scope) /\
  findMixinArg VNum mixin_url_scope "scope" = VNum 2 /\
  getMixinArgs VNum mixin_url_scope !! "scope" = Some (VNum 2).
Proof.
  assert (Hnd : NoDup (ip_name <$> in_params mixin_url_scope)).
  { vm_compute. repeat constructor; set_solver. }
  destruct (findMixinArg_is_getMixinArgs_lookup Q VNum mixin_url_scope) as (_ & H).
  split; [exact Hnd |].
  split; [rewrite (H Hnd "scope") |]; reflexivity.
Defined.

(** ** The translations of a locale *)

Lemma split_chars_length (sep : ascii -> bool) (s : string) :
  forall piece, 1 <= length (split_chars sep s piece).
Proof.
  induction s as [|c s IH]; intros piece; cbn [split_chars].
  - cbn. lia.
  - destruct (sep c); [cbn; lia | apply IH].
Qed.

Lemma find_mo_take (file_exists : string -> bool) (modir : string) (parts : list string)
    (n : nat) :
  forall fuel,
    n <= length parts -> n < fuel ->
    exists k,
      k <= n /\
      find_mo fuel file_exists modir (take n parts) = Some (take k parts) /\
      (k = 0 \/ file_exists (mo_path modir (take k parts)) = true) /\
      (forall k', k < k' <= n -> file_exists (mo_path modir (take k' parts)) = false).
Proof.
  induction n as [|n IH]; intros fuel Hlen Hfuel.
  - exists 0. split; [lia |]. split.
    + destruct fuel; cbn; rewrite andb_false_r; reflexivity.
    + split; [left; reflexivity | intros k' Hk'; lia].
  - destruct fuel as [|fuel]; [lia |].
    destruct (file_exists (mo_path modir (take (S n) parts))) eqn:He.
    + exists (S n). split; [lia |]. split.
      * cbn [find_mo]. rewrite He. reflexivity.
      * split; [right; exact He | intros k' Hk'; lia].
    + destruct (IH fuel) as (k & Hk & Hfind & Hex & Hnone); [lia | lia |].
      exists k. split; [lia |]. split.
      * cbn [find_mo]. rewrite He, length_take.
        replace (S n `min` length parts) with (S n) by lia.
        cbn [negb andb Nat.eqb].
        rewrite removelast_firstn by lia. exact Hfind.
      * split; [exact Hex |]. intros k' Hk'.
        destruct (decide (k' = S n)) as [-> | Hne]; [exact He | apply Hnone; lia].
Qed.

(** X10 -- [loadTextdomainDirectory] ends, and what it loads is the
    catalogue of the longest non-empty prefix of the parts of the locale
    whose file exists; it reports that there is no translation exactly
    when no non-empty prefix has a file, whether or not the file of the
    empty prefix exists. *)
Theorem loadTextdomainDirectory_longest_prefix (file_exists : string -> bool)
    (locale modir : string) :
  (loadTextdomainDirectory file_exists locale modir = Some NoTranslations /\
   forall k, 1 <= k <= length (locale_parts locale) ->
             file_exists (mo_path modir (take k (locale_parts locale))) = false) \/
  (exists k,
      1 <= k <= length (locale_parts locale) /\
      loadTextdomainDirectory file_exists locale modir =
        Some (LoadFile (mo_path modir (take k (locale_parts locale)))) /\
      file_exists (mo_path modir (take k (locale_parts locale))) = true /\
      forall k', k < k' <= length (locale_parts locale) ->
                 file_exists (mo_path modir (take k' (locale_parts locale))) = false).
Proof.
  unfold loadTextdomainDirectory.
  pose proof (split_chars_length is_locale_separator locale "") as Hlen.
  fold (locale_parts locale) in Hlen.
  destruct (find_mo_take file_exists modir (locale_parts locale)
              (length (locale_parts locale)) (S (length (locale_parts locale))))
    as (k & Hk & Hfind & Hex & Hnone); [lia | lia |].
  rewrite firstn_all in Hfind. rewrite Hfind, length_take.
  replace (k `min` length (locale_parts locale)) with k by lia.
  destruct k as [|k].
  - left. split; [reflexivity |]. intros k' Hk'. apply Hnone. lia.
  - right. exists (S k). split; [lia |]. split; [reflexivity |].
    split; [| exact Hnone]. destruct Hex as [Hex | Hex]; [discriminate | exact Hex].
Qed.

Example loadTextdomainDirectory_falls_back_to_language :
  loadTextdomainDirectory files_en_only "en-US.UTF-8" "po" = Some (LoadFile "po/en.mo").
Proof. reflexivity. Qed.

Example loadTextdomainDirectory_ignores_dot_mo :
  loadTextdomainDirectory (fun mo => (mo =? "po/.mo")%string) "it_IT" "po" =
  Some NoTranslations.
Proof. reflexivity. Qed.

(** ** The kinds of a device *)

Lemma indexOf_from_elem (l : list string) (x : string) :
  forall i, (0 <= i)%Z -> ((0 <=? indexOf_from l x i)%Z = true <-> x ∈ l).
Proof.
  induction l as [|y l IH]; intros i Hi.
  - cbn. split; [discriminate | intros H; inversion H].
  - cbn [indexOf_from]. rewrite elem_of_cons.
    destruct (y =? x)%string eqn:E.
    + apply String.eqb_eq in E. subst y. split; [intros _; left; reflexivity |].
      intros _. apply Z.leb_le. exact Hi.
    + apply String.eqb_neq in E. rewrite IH by lia.
      split; [intros H; right; exact H | intros [H | H]; [congruence | exact H]].
Qed.

Lemma is_own_kind_iff (state : gmap string value) (kind : string) :
  is_own_kind state kind = true <-> prop_of state "kind" = VStr kind.
Proof.
  unfold is_own_kind. destruct (prop_of state "kind"); try (split; discriminate).
  rewrite String.eqb_eq. split; [intros ->; reflexivity | intros [= ->]; reflexivity].
Qed.

(** X11 -- [hasKind] answers for the three category kinds from the
    category of the class alone, so that a device has at most one of them,
    whatever its own kind and the types it declares; for every other kind
    it answers yes exactly when the kind is the device's own or one of the
    declared types. *)
Theorem hasKind_category_or_declared (metadata : DeviceClass) (state : gmap string value) :
  (forall k1 k2,
      k1 ∈ category_kinds -> k2 ∈ category_kinds -> k1 <> k2 ->
      hasKind metadata state k1 = true -> hasKind metadata state k2 = false) /\
  (forall kind state' types',
      kind ∈ category_kinds ->
      hasKind metadata state kind =
      hasKind {| category := category metadata; types := types' |} state' kind) /\
  (forall kind,
      kind ∉ category_kinds ->
      (hasKind metadata state kind = true <->
       prop_of state "kind" = VStr kind \/ kind ∈ types metadata)).
Proof.
  assert (Hcases : forall k, k ∈ category_kinds ->
            k = "data-source" \/ k = "online-account" \/ k = "thingengine-system").
  { intros k Hk. unfold category_kinds in Hk.
    rewrite !elem_of_cons in Hk. destruct Hk as [H | [H | [H | H]]]; auto. inversion H. }
  split; [| split].
  - intros k1 k2 H1 H2 Hne. unfold hasKind.
    destruct (Hcases k1 H1) as [-> | [-> | ->]];
      destruct (Hcases k2 H2) as [-> | [-> | ->]]; try congruence;
      cbn [String.eqb Ascii.eqb Bool.eqb]; intros H; apply String.eqb_eq in H;
      rewrite H; reflexivity.
  - intros kind state' types' Hk. unfold hasKind.
    destruct (Hcases kind Hk) as [-> | [-> | ->]]; reflexivity.
  - intros kind Hk. unfold hasKind.
    assert (Hne : forall r, r ∈ category_kinds -> (kind =? r)%string = false).
    { intros r Hr. apply String.eqb_neq. intros ->. contradiction. }
    rewrite (Hne "data-source"), (Hne "online-account"), (Hne "thingengine-system")
      by (unfold category_kinds; set_solver).
    rewrite orb_true_iff, is_own_kind_iff.
    unfold indexOf. rewrite indexOf_from_elem by lia. reflexivity.
Qed.

Lemma hasKind_category_or_declared_witness :
  ("online-account" ∈ category_kinds) /\
  ("data-source" ∈ category_kinds) /\
  hasKind thermostat_class thermostat_state "data-source" = true /\
  hasKind thermostat_class thermostat_state "online-account" = false /\
  ("thermostat" ∉ category_kinds) /\
  hasKind thermostat_class thermostat_state "thermostat" = true.
Proof.
  destruct (hasKind_category_or_declared thermostat_class thermostat_state)
    as (Hexcl & _ & Hother).
  assert (H1 : "data-source" ∈ category_kinds) by (unfold category_kinds; set_solver).
  assert (H2 : "online-account" ∈ category_kinds) by (unfold category_kinds; set_solver).
  assert (H3 : "thermostat" ∉ category_kinds) by (unfold category_kinds; set_solver).
  split; [exact H2 |]. split; [exact H1 |].
  split; [reflexivity |].
  split; [apply (Hexcl "data-source" "online-account" H1 H2); [discriminate | reflexivity] |].
  split; [exact H3 |].
  apply (Hother "thermostat" H3). right. unfold thermostat_class. cbn. set_solver.
Defined.

(** ** Publicly accessible URLs *)

Lemma split_chars_nonempty (sep : ascii -> bool) (s piece : string) :
  split_chars sep s piece <> [].
Proof.
  pose proof (split_chars_length sep s piece) as H.
  destruct (split_chars sep s piece); [cbn in H; lia | discriminate].
Qed.

Lemma split_dot_single (s : string) :
  forall piece,
    (length (split_chars (fun c => (c =? ".")%char) s piece) =? 1)%nat = negb (has_dot s).
Proof.
  induction s as [|c s IH]; intros piece; [reflexivity |].
  cbn [split_chars has_dot]. destruct (c =? ".")%char; cbn [orb negb].
  - pose proof (split_chars_length (fun c => (c =? ".")%char) s "") as H.
    cbn [length]. apply Nat.eqb_neq. lia.
  - apply IH.
Qed.

Lemma split_dot_last (s : string) :
  forall piece d,
    List.last (split_chars (fun c => (c =? ".")%char) s piece) d = last_label_from s piece.
Proof.
  induction s as [|c s IH]; intros piece d; [reflexivity |].
  cbn [split_chars last_label_from]. destruct (c =? ".")%char; [| apply IH].
  pose proof (split_chars_nonempty (fun c => (c =? ".")%char) s "") as Hne.
  cbn [List.last].
  destruct (split_chars (fun c => (c =? ".")%char) s "") eqn:E; [congruence |].
  rewrite <- E. apply IH.
Qed.

(** X12 -- [isPubliclyAccessible] is false for every URL that is not http
    or https; for an http or https URL whose host the ip package does not
    take for an address, it is true exactly when the host name has a dot
    and the label after its last dot is none of local, localhost,
    localdomain, invalid and onion; when the host is an address, it is
    what the ip package says of it. *)
Theorem isPubliclyAccessible_by_last_label
    (isV4Format isV6Format isPublic : string -> bool) (parsed : ParsedUrl) :
  (protocol parsed <> "http:" -> protocol parsed <> "https:" ->
   isPubliclyAccessible isV4Format isV6Format isPublic parsed = false) /\
  (protocol parsed = "http:" \/ protocol parsed = "https:" ->
   isV4Format (hostname parsed) = false -> isV6Format (hostname parsed) = false ->
   (isPubliclyAccessible isV4Format isV6Format isPublic parsed = true <->
    has_dot (hostname parsed) = true /\
    last_label (hostname parsed) ∉ special_use_labels)) /\
  (protocol parsed = "http:" \/ protocol parsed = "https:" ->
   isV4Format (hostname parsed) = true \/ isV6Format (hostname parsed) = true ->
   isPubliclyAccessible isV4Format isV6Format isPublic parsed = isPublic (hostname parsed)).
Proof.
  assert (Hproto : protocol parsed = "http:" \/ protocol parsed = "https:" ->
            negb (protocol parsed =? "http:")%string &&
            negb (protocol parsed =? "https:")%string = false).
  { intros [-> | ->]; reflexivity. }
  split; [| split].
  - intros H1 H2. unfold isPubliclyAccessible.
    apply String.eqb_neq in H1, H2. rewrite H1, H2. reflexivity.
  - intros Hp H4 H6. unfold isPubliclyAccessible.
    rewrite (Hproto Hp), H4, H6. cbn [orb].
    rewrite split_dot_single, split_dot_last. fold (last_label (hostname parsed)).
    destruct (has_dot (hostname parsed)); cbn [negb].
    + destruct (0 <=? indexOf special_use_labels (last_label (hostname parsed)))%Z eqn:E.
      * unfold indexOf in E. apply indexOf_from_elem in E; [| lia].
        split; [discriminate | intros [_ H]; contradiction].
      * split; [| reflexivity]. intros _. split; [reflexivity |].
        intros Hin. unfold indexOf in E.
        apply (indexOf_from_elem special_use_labels _ 0%Z) in Hin; [| lia]. congruence.
    + split; [discriminate | intros [H _]; discriminate].
  - intros Hp Hip. unfold isPubliclyAccessible. rewrite (Hproto Hp).
    destruct Hip as [-> | ->]; [reflexivity | rewrite orb_true_r; reflexivity].
Qed.

Lemma isPubliclyAccessible_by_last_label_witness :
  ("https:" = "http:" \/ "https:" = "https:") /\
  has_dot "cam.example.org" = true /\
  (last_label "cam.example.org" ∉ special_use_labels) /\
  isPubliclyAccessible never never never
    {| protocol := "https:"; hostname := "cam.example.org" |} = true.
Proof.
  destruct (isPubliclyAccessible_by_last_label never never never
              {| protocol := "https:"; hostname := "cam.example.org" |}) as (_ & H & _).
  assert (Hp : "https:" = "http:" \/ "https:" = "https:") by (right; reflexivity).
  assert (Hl : last_label "cam.example.org" ∉ special_use_labels).
  { vm_compute. set_solver. }
  split; [exact Hp |]. split; [reflexivity |]. split; [exact Hl |].
  apply (H Hp eq_refl eq_refl). split; [reflexivity | exact Hl].
Defined.

Example isPubliclyAccessible_local_is_private :
  isPubliclyAccessible never never never
    {| protocol := "http:"; hostname := "printer.local" |} = false.
Proof. reflexivity. Qed.

Example isPubliclyAccessible_single_label_is_private :
  isPubliclyAccessible never never never
    {| protocol := "http:"; hostname := "intranet" |} = false.
Proof. reflexivity. Qed.

(** ** The preference store *)

Section Preferences.

Import FilePreferences.

Variable strict_equal : value -> value -> bool.

Lemma scheduleWrite_fields (this : store) :
  _prefs (fst (_scheduleWrite this)) = _prefs this /\
  _file (fst (_scheduleWrite this)) = _file this /\
  _writeTimeout (fst (_scheduleWrite this)) = _writeTimeout this /\
  _dirty (fst (_scheduleWrite this)) = true /\
  _writeScheduled (fst (_scheduleWrite this)) = _writeScheduled this.
Proof.
  unfold _scheduleWrite. cbn. destruct (_writeScheduled this) eqn:E; cbn;
    repeat split; solve [reflexivity | exact E].
Qed.

Lemma step_prefs_untouched (this : store) (c : call) (name : string) :
  touches name c = false ->
  FilePreferences.get (fst (step strict_equal this c)) name = FilePreferences.get this name.
Proof.
  unfold FilePreferences.get. destruct c as [n v|n| | | |]; cbn [touches step];
    [| | intros _ .. ].
  - intros Hn. apply String.eqb_neq in Hn. unfold FilePreferences.set. cbn [fst snd].
    destruct (scheduleWrite_fields (with_prefs this (<[n:=v]> (_prefs this)))) as (-> & _).
    cbn. unfold prop_of. rewrite lookup_insert_ne by exact Hn. reflexivity.
  - intros Hn. apply String.eqb_neq in Hn. unfold FilePreferences.delete. cbn [fst snd].
    destruct (scheduleWrite_fields (with_prefs this (base.delete n (_prefs this))))
      as (-> & _).
    cbn. unfold prop_of. rewrite lookup_delete_ne by exact Hn. reflexivity.
  - unfold changed. cbn [fst]. destruct (scheduleWrite_fields this) as (-> & _). reflexivity.
  - reflexivity.
  - reflexivity.
  - reflexivity.
Qed.

Lemma run_prefs_untouched (calls : list call) (name : string) :
  forall this,
    Forall (fun c => touches name c = false) calls ->
    FilePreferences.get (fst (run strict_equal this calls)) name = FilePreferences.get this name.
Proof.
  induction calls as [|c calls IH]; intros this Hall; [reflexivity |].
  inversion Hall as [|? ? Hc Hrest]; subst. cbn [run fst].
  rewrite IH by exact Hrest. apply step_prefs_untouched. exact Hc.
Qed.

(** X13 -- On a store as the constructor leaves it and the calls made
    since leave it, none of which sets the name [__proto__], and for a
    name that is not the name of a built-in member: [set] returns the
    value it is given, and [get] gives that value for the name until the
    preference is set or deleted again, whatever the other calls and
    timers in between; after [delete], and until the name is set again,
    [get] gives [undefined] and the name is not among the keys. *)
Theorem FilePreferences_get_after_set (file : string) (writeTimeout : option Q)
    (read : read_outcome) (fresh : store) (effects : list effect)
    (before calls : list call) (name : string) (v : value) :
  construct file writeTimeout read = Some (fresh, effects) ->
  builtin_member name = false ->
  Forall (fun c => touches "__proto__" c = false) (before ++ calls) ->
  Forall (fun c => touches name c = false) calls ->
  let this := fst (run strict_equal fresh before) in
  snd (FilePreferences.set strict_equal this name v) = v /\
  FilePreferences.get
    (fst (run strict_equal (fst (fst (FilePreferences.set strict_equal this name v))) calls))
    name = v /\
  (name ∈ keys (fst (fst (FilePreferences.set strict_equal this name v)))) /\
  FilePreferences.get
    (fst (run strict_equal (fst (FilePreferences.delete this name)) calls)) name
    = VUndefined /\
  (name ∉ keys (fst (FilePreferences.delete this name))).
Proof.
  intros _ _ _ Hall this.
  assert (Hset : _prefs (fst (fst (FilePreferences.set strict_equal this name v))) =
                 <[name := v]> (_prefs this)).
  { unfold FilePreferences.set. cbn [fst].
    destruct (scheduleWrite_fields (with_prefs this (<[name:=v]> (_prefs this))))
      as (-> & _). reflexivity. }
  assert (Hdel : _prefs (fst (FilePreferences.delete this name)) =
                 base.delete name (_prefs this)).
  { unfold FilePreferences.delete. cbn [fst].
    destruct (scheduleWrite_fields (with_prefs this (base.delete name (_prefs this))))
      as (-> & _). reflexivity. }
  split; [reflexivity |].
  split.
  { rewrite run_prefs_untouched by exact Hall.
    unfold FilePreferences.get, prop_of. rewrite Hset, lookup_insert_eq. reflexivity. }
  split.
  { unfold keys. rewrite Hset, dom_insert_L. set_solver. }
  split.
  { rewrite run_prefs_untouched by exact Hall.
    unfold FilePreferences.get, prop_of. rewrite Hdel, lookup_delete_eq. reflexivity. }
  unfold keys. rewrite Hdel, dom_delete_L. set_solver.
Qed.

Lemma step_writeScheduled (this : store) (c : call) :
  _writeScheduled this = false ->
  _writeScheduled (fst (step strict_equal this c)) = false /\
  length (List.filter is_timer (snd (step strict_equal this c))) =
    (if mutates c then 1 else 0).
Proof.
  intros Hw.
  assert (Hs : forall t, _writeScheduled t = false ->
            _writeScheduled (fst (_scheduleWrite t)) = false /\
            snd (_scheduleWrite t) = [SetTimeout (_writeTimeout t)]).
  { intros t Ht. unfold _scheduleWrite. cbn. rewrite Ht. cbn. auto. }
  destruct c as [n v|n| | | |]; cbn [step mutates].
  - unfold FilePreferences.set. cbn [fst snd].
    destruct (Hs (with_prefs this (<[n:=v]> (_prefs this))) Hw) as (-> & ->).
    split; [reflexivity |].
    destruct (negb (strict_equal (prop_of (_prefs this) n) v)); reflexivity.
  - unfold FilePreferences.delete. cbn [fst snd].
    destruct (Hs (with_prefs this (base.delete n (_prefs this))) Hw) as (-> & ->).
    split; reflexivity.
  - unfold changed. cbn [fst snd]. destruct (Hs this Hw) as (-> & ->). split; reflexivity.
  - split; [exact Hw |]. unfold flush. destruct (negb (_dirty this)); reflexivity.
  - split; [exact Hw | reflexivity].
  - unfold timer_fires, flush. cbn. split; [reflexivity |].
    destruct (negb (_dirty this)); reflexivity.
Qed.

Lemma filter_is_timer_app (l l' : list effect) :
  length (List.filter is_timer (l ++ l')) =
  length (List.filter is_timer l) + length (List.filter is_timer l').
Proof. rewrite List.filter_app, length_app. reflexivity. Qed.

Lemma run_writeScheduled (calls : list call) :
  forall this,
    _writeScheduled this = false ->
    _writeScheduled (fst (run strict_equal this calls)) = false /\
    length (List.filter is_timer (snd (run strict_equal this calls))) =
      length (List.filter mutates calls).
Proof.
  induction calls as [|c calls IH]; intros this Hw; [split; [exact Hw | reflexivity] |].
  cbn [run fst snd]. destruct (step_writeScheduled this c Hw) as (Hw' & Hc).
  destruct (IH _ Hw') as (Hw'' & Hn).
  split; [exact Hw'' |].
  rewrite filter_is_timer_app, Hc, Hn. cbn [List.filter].
  destruct (mutates c); reflexivity.
Qed.

Lemma construct_fields (file : string) (writeTimeout : option Q) (read : read_outcome)
    (this : store) (effects : list effect) :
  construct file writeTimeout read = Some (this, effects) ->
  _dirty this = false /\ _writeScheduled this = false /\ _file this = file.
Proof.
  unfold construct. destruct read; intros [= <- <-]; cbn; auto.
Qed.

(** X14 -- The field [_writeScheduled] of a constructed store is false at
    every moment, so that writes are never merged: a sequence of calls and
    timers arms exactly one timer for each [set], [delete] and [changed]
    call in it. *)
Theorem FilePreferences_one_timer_per_mutation (file : string) (writeTimeout : option Q)
    (read : read_outcome) (this : store) (effects : list effect) (calls : list call) :
  construct file writeTimeout read = Some (this, effects) ->
  _writeScheduled (fst (run strict_equal this calls)) = false /\
  length (List.filter is_timer (snd (run strict_equal this calls))) =
    length (List.filter mutates calls).
Proof.
  intros Hc. apply run_writeScheduled.
  destruct (construct_fields _ _ _ _ _ Hc) as (_ & Hw & _). exact Hw.
Qed.

Lemma step_dirty (this : store) (c : call) :
  _file (fst (step strict_equal this c)) = _file this /\
  (_dirty this = true -> _dirty (fst (step strict_equal this c)) = true) /\
  (mutates c = true -> _dirty (fst (step strict_equal this c)) = true).
Proof.
  destruct c as [n v|n| | | |]; cbn [step mutates].
  - unfold FilePreferences.set. cbn [fst].
    destruct (scheduleWrite_fields (with_prefs this (<[n:=v]> (_prefs this))))
      as (_ & -> & _ & -> & _). auto.
  - unfold FilePreferences.delete. cbn [fst].
    destruct (scheduleWrite_fields (with_prefs this (base.delete n (_prefs this))))
      as (_ & -> & _ & -> & _). auto.
  - unfold changed. cbn [fst].
    destruct (scheduleWrite_fields this) as (_ & -> & _ & -> & _). auto.
  - cbn. split; [reflexivity |]. split; [auto | discriminate].
  - cbn. split; [reflexivity |]. split; [auto | discriminate].
  - cbn. split; [reflexivity |]. split; [auto | discriminate].
Qed.

Lemma run_dirty (calls : list call) :
  forall this,
    _file (fst (run strict_equal this calls)) = _file this /\
    (_dirty this = true \/ Exists (fun c => mutates c = true) calls ->
     _dirty (fst (run strict_equal this calls)) = true).
Proof.
  induction calls as [|c calls IH]; intros this.
  - split; [reflexivity |]. intros [H | H]; [exact H | inversion H].
  - cbn [run fst]. destruct (step_dirty this c) as (Hf & Hd & Hm).
    destruct (IH (fst (step strict_equal this c))) as (Hf' & Hd').
    split; [congruence |].
    intros [H | H]; apply Hd'; [left; auto |].
    apply Exists_cons in H as [H | H]; [left; auto | right; exact H].
Qed.

(** X15 -- A store is not dirty when its constructor returns, also when
    the constructor armed a timer for a store that starts empty: that
    timer, or a [flush], writes nothing unless a [set], [delete] or
    [changed] came first.  From the first such call on the store is dirty
    for ever: every later [flush] writes the preferences of that moment to
    the file of the store. *)
Theorem FilePreferences_dirty_for_ever (file : string) (writeTimeout : option Q)
    (read : read_outcome) (this : store) (effects : list effect) :
  construct file writeTimeout read = Some (this, effects) ->
  flush this = [] /\
  snd (timer_fires this) = [] /\
  (forall calls,
      Forall (fun c => c = CallFlush \/ c = TimerFires) calls ->
      snd (run strict_equal this calls) = []) /\
  (forall calls,
      Exists (fun c => mutates c = true) calls ->
      flush (fst (run strict_equal this calls)) =
        [WriteFile file (_prefs (fst (run strict_equal this calls)))]).
Proof.
  intros Hc. destruct (construct_fields _ _ _ _ _ Hc) as (Hd & Hw & Hf).
  split; [unfold flush; rewrite Hd; reflexivity |].
  split; [unfold timer_fires, flush; cbn; rewrite Hd; reflexivity |].
  split.
  - intros calls Hall. clear Hc Hw Hf effects. revert this Hd.
    induction calls as [|c calls IH]; intros this Hd; [reflexivity |].
    inversion Hall as [|? ? Hm Hrest]; subst. cbn [run snd].
    destruct Hm as [-> | ->]; cbn [step timer_fires fst snd]; unfold flush; cbn;
      rewrite Hd; cbn; apply (IH Hrest); exact Hd.
  - intros calls Hex. destruct (run_dirty calls this) as (Hf' & Hd').
    unfold flush. rewrite Hd' by (right; exact Hex). cbn. rewrite Hf', Hf. reflexivity.
Qed.

End Preferences.

Lemma FilePreferences_get_after_set_witness :
  FilePreferences.construct "prefs.db" None (FilePreferences.ReadObject prefs_two) =
    Some (store_of_two, []) /\
  builtin_member "cloud-id" = false /\
  Forall (fun c => FilePreferences.touches "__proto__" c = false)
         ([FilePreferences.CallChanged] ++ calls_elsewhere) /\
  Forall (fun c => FilePreferences.touches "cloud-id" c = false) calls_elsewhere /\
  FilePreferences.get
    (fst (FilePreferences.run strict_equal_data
            (fst (fst (FilePreferences.set strict_equal_data
                         (fst (FilePreferences.run strict_equal_data store_of_two
                                 [FilePreferences.CallChanged]))
                         "cloud-id" (VStr "xyz"))))
            calls_elsewhere))
    "cloud-id" = VStr "xyz".
Proof.
  assert (Hc : FilePreferences.construct "prefs.db" None
                 (FilePreferences.ReadObject prefs_two) = Some (store_of_two, []))
    by reflexivity.
  assert (Hn : builtin_member "cloud-id" = false) by reflexivity.
  assert (Hp : Forall (fun c => FilePreferences.touches "__proto__" c = false)
                      ([FilePreferences.CallChanged] ++ calls_elsewhere))
    by (repeat constructor).
  assert (Hall : Forall (fun c => FilePreferences.touches "cloud-id" c = false)
                        calls_elsewhere) by (repeat constructor).
  split; [exact Hc |]. split; [exact Hn |]. split; [exact Hp |]. split; [exact Hall |].
  exact (proj1 (proj2 (FilePreferences_get_after_set strict_equal_data "prefs.db" None
                         (FilePreferences.ReadObject prefs_two) store_of_two []
                         [FilePreferences.CallChanged] calls_elsewhere
                         "cloud-id" (VStr "xyz") Hc Hn Hp Hall))).
Defined.

Lemma FilePreferences_one_timer_per_mutation_witness :
  FilePreferences.construct "prefs.db" None FilePreferences.ReadNoEntry =
    Some (store_empty, [FilePreferences.SetTimeout 100%Q]) /\
  length (List.filter FilePreferences.is_timer
            (snd (FilePreferences.run strict_equal_data store_empty calls_elsewhere))) = 2.
Proof.
  assert (Hc : FilePreferences.construct "prefs.db" None FilePreferences.ReadNoEntry =
               Some (store_empty, [FilePreferences.SetTimeout 100%Q])) by reflexivity.
  split; [exact Hc |].
  rewrite (proj2 (FilePreferences_one_timer_per_mutation strict_equal_data _ _ _ _ _
                    calls_elsewhere Hc)).
  reflexivity.
Defined.

Lemma FilePreferences_dirty_for_ever_witness :
  FilePreferences.construct "prefs.db" None (FilePreferences.ReadObject prefs_two) =
    Some (store_of_two, []) /\
  FilePreferences.flush store_of_two = [] /\
  Exists (fun c => FilePreferences.mutates c = true) calls_elsewhere /\
  FilePreferences.flush
    (fst (FilePreferences.run strict_equal_data store_of_two calls_elsewhere)) =
  [FilePreferences.WriteFile "prefs.db"
     {[ "cloud-id" := VStr "abc"; "developer-key" := VStr "k" ]}].
Proof.
  assert (Hc : FilePreferences.construct "prefs.db" None
                 (FilePreferences.ReadObject prefs_two) = Some (store_of_two, []))
    by reflexivity.
  assert (Hex : Exists (fun c => FilePreferences.mutates c = true) calls_elsewhere)
    by (left; reflexivity).
  destruct (FilePreferences_dirty_for_ever strict_equal_data _ _ _ _ _ Hc)
    as (Hflush & _ & _ & Hdirty).
  split; [exact Hc |]. split; [exact Hflush |]. split; [exact Hex |].
  rewrite (Hdirty calls_elsewhere Hex). reflexivity.
Defined.
